(** * Lens demo: the conversation-and-image session of [src/app/page.tsx]

    The [Home] component keeps three pieces of React state ([images],
    [messages], [isLoading]) and three handlers that update them:
    [handleImageCapture], [removeImage] and the asynchronous
    [handleSendMessage], which awaits the server action [chatWithImage].
    This file embeds those handlers as functions on the component state and
    proves the properties the specification lists for them. It then embeds
    the chat and voice components that call the handlers and the two
    variants of the server actions, and proves what the code shows of them
    and of the page as a whole. *)

From Stdlib Require Import String Ascii Bool Arith ZArith Lia List.
From Stdlib Require Import DecimalString.
From Stdlib Require DecimalZ.
Import ListNotations.

Local Open Scope string_scope.
Local Open Scope list_scope.
Local Open Scope nat_scope.

(** ** The JavaScript array and string operations the handlers use *)

Module JS.

Section Arrays.
Context {A : Type}.

(** [arr.slice(-k)]: the last [k] elements, or the whole array when it
    is shorter than [k]. *)
Definition slice_last (k : nat) (arr : list A) : list A :=
  skipn (length arr - k) arr.

(** [arr.filter((x, i) => f(x, i))], with the callback's index starting
    from [i]. *)
Fixpoint filter_from (f : A -> nat -> bool) (i : nat) (arr : list A) : list A :=
  match arr with
  | [] => []
  | x :: rest =>
      if f x i then x :: filter_from f (S i) rest
      else filter_from f (S i) rest
  end.

Definition filter (f : A -> nat -> bool) (arr : list A) : list A :=
  filter_from f 0 arr.

(** [arr[0]]: [undefined] (here [None]) on an empty array. *)
Definition first (arr : list A) : option A := nth_error arr 0.
End Arrays.

(** [n.toString()] and [`${n}`] for an integer [n]. *)
Definition toString (n : Z) : string := NilZero.string_of_int (Z.to_int n).

(** [arr.join(sep)] on an array of strings. *)
Fixpoint join (sep : string) (arr : list string) : string :=
  match arr with
  | [] => EmptyString
  | [x] => x
  | x :: rest => (x ++ sep ++ join sep rest)%string
  end.

End JS.

(** ** Data model *)

Inductive Role : Type := user | assistant.

(** Modelled from the spec: the [Message] type of [@/types/conversation],
    whose declaration is not among the sources. The fields are the ones
    the handlers write ([id], [role], [content], [timestamp], [imageUrl])
    and the optional audio reference of the data model. *)
Record Message : Type := mkMessage {
  id : string;
  role : Role;
  content : string;
  timestamp : Z;
  imageUrl : option string;
  audioUrl : option string
}.

(** Modelled from the spec: the [ChatResponse] type of
    [@/types/conversation], as the server action builds it:
    [{ message, success, error? }]. *)
Record ChatResponse : Type := mkChatResponse {
  message : string;
  success : bool;
  error : option string
}.

(** The elements of [conversationHistory]: [{ role, content }]. *)
Record HistoryEntry : Type := mkHistoryEntry {
  entry_role : Role;
  entry_content : string
}.

(** The three [useState] cells of [Home]. *)
Record State : Type := mkState {
  images : list string;
  messages : list Message;
  isLoading : bool
}.

Definition initialState : State :=
  {| images := []; messages := []; isLoading := false |}.

(** The state setters. A setter called with a value is the constant
    updater. *)
Definition setImages (f : list string -> list string) (s : State) : State :=
  {| images := f (images s); messages := messages s; isLoading := isLoading s |}.

Definition setMessages (f : list Message -> list Message) (s : State) : State :=
  {| images := images s; messages := f (messages s); isLoading := isLoading s |}.

Definition setIsLoading (b : bool) (s : State) : State :=
  {| images := images s; messages := messages s; isLoading := b |}.

(** The two clock readings a handler makes when it builds a message:
    [Date.now()] for the id and [new Date()] for the timestamp. *)
Record Clock : Type := mkClock {
  Date_now : Z;
  new_Date : Z
}.

(** ** [handleImageCapture] and [removeImage] *)

Definition handleImageCapture (imageUrl : string) (s : State) : State :=
  if String.eqb imageUrl EmptyString then
    setMessages (fun _ => []) (setImages (fun _ => []) s)
  else
    setMessages (fun _ => [])
      (setImages
         (fun prev =>
            let newImages := prev ++ [imageUrl] in
            if 3 <? length newImages then JS.slice_last 3 newImages
            else newImages)
         s).

Definition removeImage (index : Z) (s : State) : State :=
  setMessages (fun _ => [])
    (setImages
       (fun prev => JS.filter (fun _ i => negb (Z.of_nat i =? index)%Z) prev)
       s).

(** A sequence of captures, oldest first. *)
Definition addImages (payloads : list string) (s : State) : State :=
  fold_left (fun st p => handleImageCapture p st) payloads s.

(** ** [handleSendMessage] *)

(** The arguments of one [chatWithImage] call. *)
Record InferCall : Type := mkInferCall {
  call_message : string;
  call_imageUrl : option string;
  call_history : list HistoryEntry
}.

(** How the awaited promise settles: it resolves with a response or it
    rejects. *)
Inductive Outcome : Type :=
| Resolved (response : ChatResponse)
| Rejected.

(** The part of [handleSendMessage] that runs after the [await]: the
    [if (response.success)] branch, the [catch] and the [finally]. The
    setters act on the state that is current when the promise settles. *)
Definition afterReply (o : Outcome) (clk : Clock) (st : State) : State :=
  let st1 :=
    match o with
    | Resolved response =>
        if success response then
          let aiMessage :=
            {| id := JS.toString (Date_now clk + 1)%Z;
               role := assistant;
               content := message response;
               timestamp := new_Date clk;
               imageUrl := None;
               audioUrl := None |} in
          setMessages (fun prev => prev ++ [aiMessage]) st
        else st
    | Rejected => st
    end in
  setIsLoading false st1.

(** One run of the handler up to its first suspension: it either returns
    without calling the server action, or it is suspended on a call, with
    the state it has set so far and what it does when the call settles. *)
Inductive Turn : Type :=
| Returned (s : State)
| Awaiting (s : State) (req : InferCall) (resume : Outcome -> Clock -> State -> State).

Definition noImagePrompt : string :=
  "Please upload or capture an image first so I can analyze it for you.".

Definition toHistory (msgs : list Message) : list HistoryEntry :=
  map (fun msg => {| entry_role := role msg; entry_content := content msg |}) msgs.

Definition handleSendMessage (clk : Clock) (text : string) (s : State) : Turn :=
  if length (images s) =? 0 then
    let systemMessage :=
      {| id := JS.toString (Date_now clk);
         role := assistant;
         content := noImagePrompt;
         timestamp := new_Date clk;
         imageUrl := None;
         audioUrl := None |} in
    Returned (setMessages (fun _ => [systemMessage]) s)
  else
    let s1 := setIsLoading true s in
    let userMessage :=
      {| id := JS.toString (Date_now clk);
         role := user;
         content := text;
         timestamp := new_Date clk;
         imageUrl := JS.first (images s);
         audioUrl := None |} in
    let updatedMessages := messages s ++ [userMessage] in
    let s2 := setMessages (fun _ => updatedMessages) s1 in
    let conversationHistory := toHistory updatedMessages in
    let enhancedMessage :=
      if 1 <? length (images s) then
        ("I have " ++ JS.toString (Z.of_nat (length (images s)))
           ++ " images to analyze. " ++ text)%string
      else text in
    Awaiting s2
      {| call_message := enhancedMessage;
         call_imageUrl := JS.first (images s);
         call_history := conversationHistory |}
      afterReply.

(** ** The session as a sequence of events

    User actions and promise settlements interleave: while a call is
    outstanding the user can still add, remove or clear images. A session
    is the component state together with the suspended handler runs,
    oldest first. *)

Record Session : Type := mkSession {
  ui : State;
  pending : list (InferCall * (Outcome -> Clock -> State -> State));
  calls : list InferCall
}.

Definition initialSession : Session :=
  {| ui := initialState; pending := []; calls := [] |}.

Inductive Event : Type :=
| AddImage (payload : string)
| RemoveImage (index : Z)
| SendMessage (clk : Clock) (text : string)
| Settle (o : Outcome) (clk : Clock).

Definition step (ss : Session) (e : Event) : Session :=
  match e with
  | AddImage payload =>
      {| ui := handleImageCapture payload (ui ss);
         pending := pending ss; calls := calls ss |}
  | RemoveImage index =>
      {| ui := removeImage index (ui ss);
         pending := pending ss; calls := calls ss |}
  | SendMessage clk text =>
      match handleSendMessage clk text (ui ss) with
      | Returned s' =>
          {| ui := s'; pending := pending ss; calls := calls ss |}
      | Awaiting s' req resume =>
          {| ui := s';
             pending := pending ss ++ [(req, resume)];
             calls := calls ss ++ [req] |}
      end
  | Settle o clk =>
      match pending ss with
      | [] => ss
      | (_, resume) :: rest =>
          {| ui := resume o clk (ui ss); pending := rest; calls := calls ss |}
      end
  end.

Definition run (evs : list Event) (ss : Session) : Session :=
  fold_left step evs ss.

(** ** The history window of the server action [chatWithImage]

    The action receives the whole [conversationHistory] and cuts it down
    itself: [slice(-6)], then the entries with a non-empty role and content,
    each rendered as a line. [historyWindow] is the constant of
    [slice(-6)]; the second variant of the action in the repository uses
    [slice(-10)] and is otherwise the same expression. *)

Module ChatAction.

Definition historyWindow : nat := 6.

Definition newline : string := String (ascii_of_nat 10) EmptyString.

(** [msg.role && msg.content]: both role names are non-empty strings, so
    the test is whether the content is non-empty. *)
Definition truthy (s : string) : bool := negb (String.eqb s EmptyString).

Definition roleName (r : Role) : string :=
  match r with user => "user" | assistant => "assistant" end.

Definition keepEntry (msg : HistoryEntry) : bool :=
  truthy (roleName (entry_role msg)) && truthy (entry_content msg).

Definition renderEntry (msg : HistoryEntry) : string :=
  ((match entry_role msg with user => "User" | assistant => "Assistant" end)
     ++ ": " ++ entry_content msg)%string.

Definition recentHistoryOf (window : nat) (conversationHistory : list HistoryEntry) : string :=
  JS.join newline
    (map renderEntry
       (List.filter keepEntry (JS.slice_last window conversationHistory))).

Definition recentHistory : list HistoryEntry -> string :=
  recentHistoryOf historyWindow.

End ChatAction.

(** ** Predicates and sample sessions used by the statements *)

Definition nonEmpty (payload : string) : Prop := payload <> EmptyString.

(** A call has failed when its promise rejects or resolves with
    [success = false]. *)
Definition failed (o : Outcome) : Prop :=
  match o with
  | Resolved response => success response = false
  | Rejected => True
  end.

Definition clock0 : Clock := {| Date_now := 1700000000000; new_Date := 1700000000000 |}.
Definition clock1 : Clock := {| Date_now := 1700000002500; new_Date := 1700000002501 |}.

Definition oneImage : State :=
  {| images := ["img1"]; messages := []; isLoading := false |}.

Definition aCat : ChatResponse :=
  {| message := "A cat"; success := true; error := None |}.

(** The reading of "appends exactly one assistant message": the handler
    returns with the earlier messages kept and one assistant message added
    after them. *)
Definition appendsOnePrompt (clk : Clock) (text : string) (s : State) : Prop :=
  exists s' prompt,
    handleSendMessage clk text s = Returned s' /\
    messages s' = messages s ++ [prompt] /\
    role prompt = assistant.

(** The state after one message was sent to the empty session: no images,
    and the prompt for an image as the only message. *)
Definition promptedOnce : State :=
  ui (run [SendMessage clock0 "what is this"] initialSession).

Definition serverError : ChatResponse :=
  {| message := "Sorry, I encountered an error while processing your request.";
     success := false;
     error := Some "Failed to generate response" |}.

Definition twoImages : State :=
  {| images := ["img1"; "img2"]; messages := []; isLoading := false |}.

Definition earlierMessage (n : nat) : Message :=
  {| id := JS.toString (Z.of_nat n);
     role := if Nat.even n then user else assistant;
     content := "turn";
     timestamp := Z.of_nat n;
     imageUrl := None;
     audioUrl := None |}.

(** A session with ten earlier messages, more than the action's window. *)
Definition longSession : State :=
  {| images := ["img1"]; messages := map earlierMessage (seq 0 10); isLoading := false |}.

(** One message is sent from a session with no call outstanding, the user
    clears the images while the call is in flight, and then the call
    settles. *)
Definition resetInFlight (s : State) (clk : Clock) (text : string)
    (o : Outcome) (clk' : Clock) : Session :=
  run [SendMessage clk text; AddImage EmptyString; Settle o clk']
      {| ui := s; pending := []; calls := [] |}.

(** The reading of "the superseded response is discarded": after the
    reset, the successful reply of the outstanding call does not reach the
    messages, which stay empty. *)
Definition supersededReplyDiscarded (s : State) (clk : Clock) (text : string)
    (response : ChatResponse) (clk' : Clock) : Prop :=
  images s <> [] ->
  success response = true ->
  messages (ui (resetInFlight s clk text (Resolved response) clk')) = [].

(** ** What holds of every session

    A message written by the handlers either is a user message showing the
    first image of its moment, or is an assistant message without an image;
    no handler ever attaches audio. *)

Definition wellFormedMessage (m : Message) : Prop :=
  audioUrl m = None /\
  match role m with
  | user => exists img, imageUrl m = Some img /\ nonEmpty img
  | assistant => imageUrl m = None
  end.

Definition callHasImage (c : InferCall) : Prop :=
  exists img, call_imageUrl c = Some img /\ nonEmpty img.

Definition sessionInv (ss : Session) : Prop :=
  length (images (ui ss)) <= 3 /\
  Forall nonEmpty (images (ui ss)) /\
  Forall wellFormedMessage (messages (ui ss)) /\
  Forall callHasImage (calls ss) /\
  Forall (fun pr => snd pr = afterReply) (pending ss).

(** ** A conversation of complete exchanges

    One exchange is a message sent and its call settled with a response,
    before the next message is sent. *)

Record Exchange : Type := mkExchange {
  ex_sent : Clock;
  ex_text : string;
  ex_reply : ChatResponse;
  ex_received : Clock
}.

Definition exchangeEvents (x : Exchange) : list Event :=
  [SendMessage (ex_sent x) (ex_text x); Settle (Resolved (ex_reply x)) (ex_received x)].

Definition exchangeEntries (x : Exchange) : list HistoryEntry :=
  [{| entry_role := user; entry_content := ex_text x |};
   {| entry_role := assistant; entry_content := message (ex_reply x) |}].

(** ** [String.prototype.trim]

    Strings are byte strings in UTF-8. [trim] strips, from both ends, the
    code points of the ECMAScript productions WhiteSpace and LineTerminator:
    TAB, LF, VT, FF, CR, SP in one byte, and NBSP, U+1680, U+2000 to U+200A,
    U+2028, U+2029, U+202F, U+205F, U+3000 and U+FEFF in their two- and
    three-byte encodings. *)

Module JSText.

Definition bytes (codes : list nat) : list ascii := map ascii_of_nat codes.

Definition whiteSpace : list (list ascii) :=
  map bytes
    [[9]; [10]; [11]; [12]; [13]; [32];
     [194; 160];
     [225; 154; 128];
     [226; 128; 128]; [226; 128; 129]; [226; 128; 130]; [226; 128; 131];
     [226; 128; 132]; [226; 128; 133]; [226; 128; 134]; [226; 128; 135];
     [226; 128; 136]; [226; 128; 137]; [226; 128; 138];
     [226; 128; 168]; [226; 128; 169]; [226; 128; 175];
     [226; 129; 159];
     [227; 128; 128];
     [239; 187; 191]].

(** What is left of [s] after the prefix [p], when [s] starts with [p]. *)
Fixpoint stripPrefix (p s : list ascii) : option (list ascii) :=
  match p, s with
  | [], _ => Some s
  | a :: p', b :: s' => if Ascii.eqb a b then stripPrefix p' s' else None
  | _ :: _, [] => None
  end.

Fixpoint stripAny (ps : list (list ascii)) (s : list ascii) : option (list ascii) :=
  match ps with
  | [] => None
  | p :: rest =>
      match stripPrefix p s with
      | Some r => Some r
      | None => stripAny rest s
      end
  end.

(** Strip leading occurrences of the patterns for as long as there is
    one; [fuel] bounds the number of rounds, and the length of [s] is
    always enough. *)
Fixpoint dropAll (ps : list (list ascii)) (fuel : nat) (s : list ascii) : list ascii :=
  match fuel with
  | 0 => s
  | S fuel' =>
      match stripAny ps s with
      | Some r => dropAll ps fuel' r
      | None => s
      end
  end.

Definition trimStartBytes (s : list ascii) : list ascii :=
  dropAll whiteSpace (length s) s.

Definition trimEndBytes (s : list ascii) : list ascii :=
  rev (dropAll (map (@rev ascii) whiteSpace) (length s) (rev s)).

Definition trim (s : string) : string :=
  string_of_list_ascii (trimEndBytes (trimStartBytes (list_ascii_of_string s))).

(** A string is truthy when it is not empty. *)
Definition truthy (s : string) : bool := negb (String.eqb s EmptyString).

(** A string made of white space only. *)
Definition blank (s : string) : Prop :=
  exists ws, Forall (fun p => In p whiteSpace) ws /\ list_ascii_of_string s = concat ws.


Definition startsWithSpace (s : string) : Prop :=
  stripAny whiteSpace (list_ascii_of_string s) <> None.

Definition endsWithSpace (s : string) : Prop :=
  stripAny (map (@rev ascii) whiteSpace) (rev (list_ascii_of_string s)) <> None.

End JSText.

(** ** The voice input component, [components/VoiceInput.tsx] *)

Module VoiceInput.

(** One entry of [event.results]: the transcript of its first alternative
    and whether the recogniser has settled on it. *)
Record SpeechResult : Type := mkSpeechResult {
  result_transcript : string;
  result_isFinal : bool
}.

(** The [useState] cells of the component. *)
Record VoiceState : Type := mkVoiceState {
  isListening : bool;
  transcript : string;
  isSupported : bool;
  errorMessage : string
}.

Definition initialVoice : VoiceState :=
  {| isListening := false; transcript := EmptyString; isSupported := true;
     errorMessage := EmptyString |}.

Definition setIsListening (b : bool) (st : VoiceState) : VoiceState :=
  {| isListening := b; transcript := transcript st; isSupported := isSupported st;
     errorMessage := errorMessage st |}.

Definition setTranscript (t : string) (st : VoiceState) : VoiceState :=
  {| isListening := isListening st; transcript := t; isSupported := isSupported st;
     errorMessage := errorMessage st |}.

Definition setIsSupported (b : bool) (st : VoiceState) : VoiceState :=
  {| isListening := isListening st; transcript := transcript st; isSupported := b;
     errorMessage := errorMessage st |}.

Definition setErrorMessage (m : string) (st : VoiceState) : VoiceState :=
  {| isListening := isListening st; transcript := transcript st;
     isSupported := isSupported st; errorMessage := m |}.

(** The body of the [for] loop of [onresult], on the pair
    [(finalTranscript, interimTranscript)]. *)
Definition accumulate (acc : string * string) (r : SpeechResult) : string * string :=
  let transcriptPart := result_transcript r in
  if result_isFinal r then ((fst acc ++ transcriptPart)%string, snd acc)
  else (fst acc, (snd acc ++ transcriptPart)%string).

(** [recognition.onresult]: the new state and the argument of
    [onTranscript] when the callback is called. The loop runs from
    [event.resultIndex] to the end of [event.results]. *)
Definition onresult (resultIndex : nat) (results : list SpeechResult) (st : VoiceState)
    : VoiceState * option string :=
  let acc := fold_left accumulate (skipn resultIndex results) (EmptyString, EmptyString) in
  let finalTranscript := fst acc in
  let interimTranscript := snd acc in
  let currentTranscript :=
    if JSText.truthy finalTranscript then finalTranscript else interimTranscript in
  (setTranscript currentTranscript st,
   if JSText.truthy finalTranscript then Some (JSText.trim finalTranscript) else None).

(** The language list of the effect: the browser language, or [en-US]
    when there is none, then the fixed fallbacks, with duplicates removed
    as [new Set] does, keeping first occurrences in order. *)
Fixpoint unique (seen langs : list string) : list string :=
  match langs with
  | [] => []
  | l :: rest =>
      if existsb (String.eqb l) seen then unique seen rest
      else l :: unique (l :: seen) rest
  end.

Definition supportedLanguages (navigatorLanguage : string) : list string :=
  let browserLang :=
    if JSText.truthy navigatorLanguage then navigatorLanguage else "en-US" in
  [browserLang; "en-US"; "en"; "en-GB"].

Definition uniqueLanguages (navigatorLanguage : string) : list string :=
  unique [] (supportedLanguages navigatorLanguage).

Definition fallbackLangs : list string := ["en-US"; "en"; "en-GB"].

(** [tryNextLanguage] from position [langIndex] on: [langs] is the rest of
    [fallbackLangs], [lang] the current [recognition.lang], and [start]
    tells whether [recognition.start()] returns, for the language set,
    rather than throws. The result is the final [recognition.lang] and the
    state. *)
Fixpoint tryNextLanguage (start : string -> bool) (langs : list string)
    (lang : string) (st : VoiceState) : string * VoiceState :=
  match langs with
  | next :: rest =>
      if start next then (next, setErrorMessage EmptyString st)
      else tryNextLanguage start rest next st
  | [] =>
      (lang,
       setIsSupported false
         (setErrorMessage "Voice recognition not available for your language" st))
  end.

(** [recognition.onerror] for the error code [err]. *)
Definition onerror (start : string -> bool) (err : string) (lang : string)
    (st : VoiceState) : string * VoiceState :=
  let '(lang1, st1) :=
    if String.eqb err "language-not-supported" then
      tryNextLanguage start fallbackLangs lang
        (setErrorMessage "Language not supported, trying alternatives..." st)
    else if String.eqb err "not-allowed" then
      (lang,
       setIsSupported false
         (setErrorMessage
            "Microphone access denied. Please allow microphone access to use voice input."
            st))
    else if String.eqb err "no-speech" then
      (lang, setErrorMessage "No speech detected. Please try again." st)
    else if String.eqb err "network" then
      (lang, setErrorMessage "Network error. Please check your connection." st)
    else
      (lang, setErrorMessage ("Voice recognition error: " ++ err)%string st) in
  (lang1, setIsListening false st1).

(** All the strings of a list, one after the other. *)
Definition joined (parts : list string) : string :=
  fold_right String.append EmptyString parts.

(** The transcripts of the final results, and of the others, in order. *)
Definition finalParts (results : list SpeechResult) : list string :=
  map result_transcript (List.filter result_isFinal results).

Definition interimParts (results : list SpeechResult) : list string :=
  map result_transcript (List.filter (fun r => negb (result_isFinal r)) results).

End VoiceInput.

(** ** The chat component, [components/ChatInterface.tsx] *)

Module ChatInterface.

Record ChatState : Type := mkChatState {
  inputText : string;
  isVoiceMode : bool
}.

Definition initialChat : ChatState :=
  {| inputText := EmptyString; isVoiceMode := false |}.

Definition setInputText (t : string) (st : ChatState) : ChatState :=
  {| inputText := t; isVoiceMode := isVoiceMode st |}.

Definition setIsVoiceMode (b : bool) (st : ChatState) : ChatState :=
  {| inputText := inputText st; isVoiceMode := b |}.

(** [handleSubmit], given the [isLoading] prop: the new state and the
    argument of [onSendMessage] when it is called. *)
Definition handleSubmit (loading : bool) (st : ChatState) : ChatState * option string :=
  if JSText.truthy (JSText.trim (inputText st)) && negb loading then
    (setInputText EmptyString st, Some (JSText.trim (inputText st)))
  else (st, None).

Definition handleVoiceTranscript (loading : bool) (text : string) (st : ChatState)
    : ChatState * option string :=
  if JSText.truthy text && negb loading then (setIsVoiceMode false st, Some text)
  else (st, None).

End ChatInterface.

(** ** The page and its components together

    [Home] passes [isLoading] and [handleSendMessage] to the chat
    component, and the chat component passes [handleVoiceTranscript] to the
    voice input. An event of the page is a capture or a removal, an edit of
    the text box, a submit, a recognition result, a switch of input mode, or
    the settling of the oldest outstanding call. *)

Record App : Type := mkApp {
  home : Session;
  chat : ChatInterface.ChatState;
  voice : VoiceInput.VoiceState
}.

Definition initialApp : App :=
  {| home := initialSession;
     chat := ChatInterface.initialChat;
     voice := VoiceInput.initialVoice |}.

Inductive UIEvent : Type :=
| Capture (payload : string)
| Remove (index : Z)
| Edit (text : string)
| Submit (clk : Clock)
| Heard (clk : Clock) (resultIndex : nat) (results : list VoiceInput.SpeechResult)
| SetVoiceMode (on : bool)
| Reply (o : Outcome) (clk : Clock).

(** [onSendMessage] when the component calls it. *)
Definition sendIf (clk : Clock) (sent : option string) (ss : Session) : Session :=
  match sent with
  | Some text => step ss (SendMessage clk text)
  | None => ss
  end.

Definition appStep (app : App) (e : UIEvent) : App :=
  match e with
  | Capture payload =>
      {| home := step (home app) (AddImage payload); chat := chat app; voice := voice app |}
  | Remove index =>
      {| home := step (home app) (RemoveImage index); chat := chat app; voice := voice app |}
  | Edit text =>
      {| home := home app; chat := ChatInterface.setInputText text (chat app);
         voice := voice app |}
  | Submit clk =>
      let '(chat', sent) :=
        ChatInterface.handleSubmit (isLoading (ui (home app))) (chat app) in
      {| home := sendIf clk sent (home app); chat := chat'; voice := voice app |}
  | Heard clk resultIndex results =>
      let '(voice', heard) := VoiceInput.onresult resultIndex results (voice app) in
      match heard with
      | Some text =>
          let '(chat', sent) :=
            ChatInterface.handleVoiceTranscript (isLoading (ui (home app))) text (chat app) in
          {| home := sendIf clk sent (home app); chat := chat'; voice := voice' |}
      | None => {| home := home app; chat := chat app; voice := voice' |}
      end
  | SetVoiceMode on =>
      {| home := home app; chat := ChatInterface.setIsVoiceMode on (chat app);
         voice := voice app |}
  | Reply o clk =>
      {| home := step (home app) (Settle o clk); chat := chat app; voice := voice app |}
  end.

Definition appRun (evs : list UIEvent) (app : App) : App :=
  fold_left appStep evs app.

(** ** The server actions

    The repository holds two variants of the actions file. Both have the
    same [uploadImage], the same system prompt and the same way of reading
    the mime type off a data URL; they differ in [chatWithImage]. The model
    generation [ai.generate] is outside the repository: it is a parameter,
    which for a prompt either returns the generated text or throws. Its
    [config] argument is the same constant in every call and is left out. *)

Module Actions.

Definition nl : string := ChatAction.newline.

(** The file under the form field [image]: its [type], and its bytes, or
    [None] when [arrayBuffer()] rejects. *)
Record File : Type := mkFile {
  file_type : string;
  file_bytes : option string
}.

Record UploadResult : Type := mkUploadResult {
  upload_success : bool;
  upload_imageUrl : option string;
  upload_error : option string
}.

(** [uploadImage]; [base64] is [Buffer.prototype.toString('base64')], and
    [file] is [None] when the form has no such field. *)
Definition uploadImage (base64 : string -> string) (file : option File) : UploadResult :=
  match file with
  | None =>
      {| upload_success := false; upload_imageUrl := None;
         upload_error := Some "No image provided" |}
  | Some f =>
      match file_bytes f with
      | Some bytes =>
          let mimeType := file_type f in
          let imageUrl := ("data:" ++ mimeType ++ ";base64," ++ base64 bytes)%string in
          {| upload_success := true; upload_imageUrl := Some imageUrl;
             upload_error := None |}
      | None =>
          {| upload_success := false; upload_imageUrl := None;
             upload_error := Some "Failed to process image" |}
      end
  end.

(** The longest prefix of [s] without the character [stop]. *)
Fixpoint takeUntil (stop : ascii) (s : string) : string :=
  match s with
  | EmptyString => EmptyString
  | String c rest =>
      if Ascii.eqb c stop then EmptyString else String c (takeUntil stop rest)
  end.

(** [s.split(',')[0]]. *)
Definition firstField (s : string) : string := takeUntil "," s.

Fixpoint afterPrefix (p s : string) : option string :=
  match p, s with
  | EmptyString, _ => Some s
  | String a p', String b s' => if Ascii.eqb a b then afterPrefix p' s' else None
  | String _ _, EmptyString => None
  end.

(** The first group of [s.match(/data:([^;]+)/)]: at the leftmost place
    where [data:] is followed by a character other than [;], the longest
    run of such characters. *)
Fixpoint matchDataMime (s : string) : option string :=
  match s with
  | EmptyString => None
  | String _ rest =>
      match afterPrefix "data:" s with
      | Some after =>
          let group := takeUntil ";" after in
          if JSText.truthy group then Some group else matchDataMime rest
      | None => matchDataMime rest
      end
  end.

Definition mimeTypeOf (imageUrl : string) : string :=
  match matchDataMime (firstField imageUrl) with
  | Some mimeType => mimeType
  | None => "image/jpeg"
  end.

(** What [ai.generate] is given: a text, or a text part and a media
    part. *)
Inductive Prompt : Type :=
| TextPrompt (text : string)
| PartsPrompt (text : string) (url : string) (contentType : string).

(** What [ai.generate] does: it returns a response with this text, or it
    throws; [detail] is the [message] of what was thrown when that is an
    [Error]. *)
Inductive GenerateResult : Type :=
| Generated (text : string)
| Threw (detail : option string).

Definition SYSTEM_PROMPT : string :=
  JS.join nl
    ["You are an expert AI-powered image analysis tool with advanced computer vision capabilities. Your role is to:";
     EmptyString;
     "• Provide detailed, accurate analysis of images";
     "• Identify objects, people, scenes, text, and visual elements";
     "• Describe composition, colors, lighting, and artistic elements";
     "• Answer specific questions about image content";
     "• Offer insights about context, meaning, and relationships within images";
     "• Be precise, professional, and informative in your responses";
     EmptyString;
     "IMPORTANT: Keep your responses concise and focused - maximum 600 words. Prioritize the most relevant information for the user's specific question.";
     EmptyString;
     EmptyString].

(** The block added for the conversation history, with the action's
    window; nothing is added for a missing or empty history, or when no
    entry of the window is kept. *)
Definition historyBlock (window : nat) (conversationHistory : option (list HistoryEntry))
    : string :=
  match conversationHistory with
  | Some history =>
      if 0 <? length history then
        let recentHistory := ChatAction.recentHistoryOf window history in
        if JSText.truthy (JSText.trim recentHistory) then
          ("Previous conversation context:" ++ nl ++ recentHistory ++ nl ++ nl)%string
        else EmptyString
      else EmptyString
  | None => EmptyString
  end.

Definition userRequest (message : string) : string :=
  ("User Request: " ++ message ++ nl ++ nl
     ++ "Please analyze the provided image and respond to the user's specific question. Keep your response focused and under 600 words.")%string.

Definition textPromptOf (window : nat) (message : string)
    (conversationHistory : option (list HistoryEntry)) : string :=
  (SYSTEM_PROMPT ++ historyBlock window conversationHistory ++ userRequest message)%string.

Definition ok (text : string) : ChatResponse :=
  {| message := text; success := true; error := None |}.

End Actions.

(** The variant with a text-only retry: an image is optional, and when
    generation with the image throws, generation is tried once more on the
    text alone. *)

Module ChatFallback.
Import Actions.

Definition failure : ChatResponse :=
  {| message := "Sorry, I encountered an error while processing your request.";
     success := false;
     error := Some "Failed to generate response" |}.

Definition imageNote (mimeType : string) : string :=
  (nl ++ nl ++ "[Image provided with type: " ++ mimeType
     ++ ". Please analyze this image and respond to the user's question.]")%string.

(** The last [ai.generate] of the function; when it throws, the outer
    [catch] answers. *)
Definition textOnly (generate : Prompt -> GenerateResult) (textPrompt : string)
    : ChatResponse :=
  match generate (TextPrompt textPrompt) with
  | Generated text => ok text
  | Threw _ => failure
  end.

Definition chatWithImage (generate : Prompt -> GenerateResult) (message : string)
    (imageUrl : option string) (conversationHistory : option (list HistoryEntry))
    : ChatResponse :=
  let textPrompt := textPromptOf ChatAction.historyWindow message conversationHistory in
  match imageUrl with
  | Some url =>
      if JSText.truthy url then
        let mimeType := mimeTypeOf url in
        match generate (PartsPrompt textPrompt url mimeType) with
        | Generated text => ok text
        | Threw _ => textOnly generate (textPrompt ++ imageNote mimeType)%string
        end
      else textOnly generate textPrompt
  | None => textOnly generate textPrompt
  end.

End ChatFallback.

(** The variant that requires an image: without one it answers at once,
    and when generation with the image throws it reports the failure.
    Nothing else inside its outer [try] can throw, the generation having a
    [catch] of its own, so the outer [catch] is never entered. *)

Module ChatStrict.
Import Actions.

Definition historyWindow : nat := 10.

Definition noImage : ChatResponse :=
  {| message := "Please upload or capture an image first so I can analyze it for you. I need to see the image to provide accurate analysis and answer your questions.";
     success := false;
     error := Some "No image provided" |}.

Definition generationFailed (detail : option string) : ChatResponse :=
  {| message :=
       ("I encountered an error while analyzing your image. This could be due to image format issues, connectivity problems, or temporary service unavailability. Please try again with a different image or check your connection."
          ++ nl ++ nl ++ "Error details: "
          ++ match detail with Some m => m | None => "Unknown error" end)%string;
     success := false;
     error := Some "Multimodal generation failed" |}.

Definition chatWithImage (generate : Prompt -> GenerateResult) (message : string)
    (imageUrl : option string) (conversationHistory : option (list HistoryEntry))
    : ChatResponse :=
  match imageUrl with
  | None => noImage
  | Some url =>
      if negb (JSText.truthy url) || String.eqb (JSText.trim url) EmptyString then noImage
      else
        let textPrompt := textPromptOf historyWindow message conversationHistory in
        let mimeType := mimeTypeOf url in
        match generate (PartsPrompt textPrompt url mimeType) with
        | Generated text => ok text
        | Threw detail => generationFailed detail
        end
  end.

End ChatStrict.

(** One turn of the page against an action: the message is sent, the
    action answers the call the handler made, and the handler resumes with
    that answer. Without an image there is no call. *)
Definition turnWith
    (action : string -> option string -> option (list HistoryEntry) -> ChatResponse)
    (clk clk' : Clock) (text : string) (s : State) : State :=
  match handleSendMessage clk text s with
  | Returned s' => s'
  | Awaiting s1 req resume =>
      let response :=
        action (call_message req) (call_imageUrl req) (Some (call_history req)) in
      resume (Resolved response) clk' s1
  end.

(** ** What [Home] passes down when it renders

    The props computed from [images]: the image the photo component
    previews, whether it is disabled, and the image the chat component is
    shown. *)

Definition photoCurrentImage (s : State) : string :=
  if 0 <? length (images s) then nth (length (images s) - 1) (images s) EmptyString
  else EmptyString.

Definition photoDisabled (s : State) : bool := 3 <=? length (images s).

Definition chatCurrentImage (s : State) : string :=
  if 0 <? length (images s) then nth 0 (images s) EmptyString else EmptyString.

(** ** What holds of the page driven through its components *)

(** At most one call is outstanding, and the busy flag says whether one
    is. *)
Definition singleFlight (ss : Session) : Prop :=
  (isLoading (ui ss) = false /\ pending ss = []) \/
  (isLoading (ui ss) = true /\ exists req, pending ss = [(req, afterReply)]).

(** A question is not empty and has no white space around it. *)
Definition wellTrimmed (text : string) : Prop :=
  text <> EmptyString /\
  ~ JSText.startsWithSpace text /\
  ~ JSText.endsWithSpace text.

Definition askedProperly (m : Message) : Prop :=
  role m = user -> wellTrimmed (content m).

(** The server action's filter keeps every user entry of the history. *)
Definition keepsQuestions (c : InferCall) : Prop :=
  Forall (fun h => entry_role h = user -> ChatAction.keepEntry h = true) (call_history c).

Definition pageInv (ss : Session) : Prop :=
  singleFlight ss /\
  Forall askedProperly (messages (ui ss)) /\
  Forall keepsQuestions (calls ss).

(** * Properties *)

(** ** Arrays *)

Section ArrayFacts.
Context {A : Type}.
Implicit Types (l : list A) (k : nat).

Lemma slice_last_length k l : length (JS.slice_last k l) = Nat.min k (length l).
Proof. unfold JS.slice_last. rewrite length_skipn. lia. Qed.

Lemma slice_last_short k l : length l <= k -> JS.slice_last k l = l.
Proof.
  intros H. unfold JS.slice_last.
  replace (length l - k) with 0 by lia. reflexivity.
Qed.

(** Only a long enough suffix matters. *)
Lemma slice_last_app k l1 l2 :
  k <= length l2 -> JS.slice_last k (l1 ++ l2) = JS.slice_last k l2.
Proof.
  intros H. unfold JS.slice_last.
  rewrite length_app, skipn_app.
  rewrite skipn_all2 by lia. simpl. f_equal. lia.
Qed.

Lemma slice_last_split k l :
  l = firstn (length l - k) l ++ JS.slice_last k l.
Proof. unfold JS.slice_last. symmetry. apply firstn_skipn. Qed.

Lemma slice_last_snoc k l x :
  0 < k -> JS.slice_last k (JS.slice_last k l ++ [x]) = JS.slice_last k (l ++ [x]).
Proof.
  intros Hk.
  destruct (Nat.le_gt_cases (length l) k) as [Hle | Hgt].
  - now rewrite (slice_last_short k l Hle).
  - rewrite (slice_last_split k l) at 2.
    rewrite <- app_assoc. symmetry. apply slice_last_app.
    rewrite length_app, slice_last_length. simpl. lia.
Qed.

Lemma slice_last_idem k l : JS.slice_last k (JS.slice_last k l) = JS.slice_last k l.
Proof. apply slice_last_short. rewrite slice_last_length. lia. Qed.

(** A callback that holds at every index the array has keeps the array. *)
Lemma filter_from_all (f : A -> nat -> bool) l : forall i,
  (forall j x, i <= j < i + length l -> f x j = true) ->
  JS.filter_from f i l = l.
Proof.
  induction l as [| x rest IH]; intros i Hall; simpl.
  - reflexivity.
  - rewrite (Hall i x) by (simpl; lia). f_equal.
    apply IH. intros j y Hj. apply Hall. simpl. lia.
Qed.

Lemma filter_from_length (f : A -> nat -> bool) l : forall i,
  length (JS.filter_from f i l) <= length l.
Proof.
  induction l as [| x rest IH]; intros i; simpl.
  - lia.
  - destruct (f x i); simpl; specialize (IH (S i)); lia.
Qed.

(** Dropping the one index [i + n] drops the [n]-th element. *)
Lemma filter_from_drop_one l : forall i n,
  n < length l ->
  JS.filter_from (fun _ j => negb (j =? i + n)) i l = firstn n l ++ skipn (S n) l.
Proof.
  induction l as [| x rest IH]; intros i n Hn; simpl in Hn.
  - lia.
  - destruct n as [| n]; simpl.
    + replace (i + 0) with i by lia. rewrite Nat.eqb_refl. simpl.
      apply filter_from_all. intros j y Hj.
      apply negb_true_iff, Nat.eqb_neq. lia.
    + replace (i =? i + S n) with false by (symmetry; apply Nat.eqb_neq; lia).
      simpl. f_equal.
      replace (i + S n) with (S i + n) by lia.
      apply IH. lia.
Qed.
End ArrayFacts.

Lemma filter_from_ext {A : Type} (f g : A -> nat -> bool) (l : list A) : forall i,
  (forall j x, i <= j < i + length l -> f x j = g x j) ->
  JS.filter_from f i l = JS.filter_from g i l.
Proof.
  induction l as [| x rest IH]; intros i Hfg; simpl.
  - reflexivity.
  - rewrite (Hfg i x) by (simpl; lia).
    rewrite (IH (S i)) by (intros j y Hj; apply Hfg; simpl; lia).
    reflexivity.
Qed.

(** ** Images: capture, removal, clearing *)

Lemma handleImageCapture_images (payload : string) (s : State) :
  nonEmpty payload ->
  images (handleImageCapture payload s) = JS.slice_last 3 (images s ++ [payload]).
Proof.
  intros Hne. unfold handleImageCapture.
  destruct (String.eqb_spec payload EmptyString) as [Heq | _]; [contradiction |].
  simpl. destruct (Nat.ltb_spec 3 (length (images s ++ [payload]))) as [Hlt | Hle].
  - reflexivity.
  - symmetry. now apply slice_last_short.
Qed.

(** Whatever the state before and whatever the payload, a capture leaves
    at most three images. *)
Lemma handleImageCapture_bound (payload : string) (s : State) :
  length (images (handleImageCapture payload s)) <= 3.
Proof.
  unfold handleImageCapture.
  destruct (String.eqb payload EmptyString); simpl; [lia |].
  destruct (Nat.ltb_spec 3 (length (images s ++ [payload]))) as [Hlt | Hle].
  - rewrite slice_last_length. lia.
  - exact Hle.
Qed.

Lemma addImages_snoc (ps : list string) (p : string) (s : State) :
  addImages (ps ++ [p]) s = handleImageCapture p (addImages ps s).
Proof. unfold addImages. now rewrite fold_left_app. Qed.

Lemma addImages_images (ps : list string) (s : State) :
  Forall nonEmpty ps ->
  length (images s) <= 3 ->
  images (addImages ps s) = JS.slice_last 3 (images s ++ ps).
Proof.
  induction ps as [| p ps IH] using rev_ind; intros Hall Hs.
  - simpl. rewrite app_nil_r. symmetry. now apply slice_last_short.
  - apply Forall_app in Hall as [Hps Hp].
    rewrite addImages_snoc, handleImageCapture_images
      by (now inversion Hp).
    rewrite IH by assumption.
    rewrite app_assoc. apply slice_last_snoc. lia.
Qed.

Lemma addImages_bound (ps : list string) (s : State) :
  length (images s) <= 3 -> length (images (addImages ps s)) <= 3.
Proof.
  destruct ps as [| p ps] using rev_ind; intros Hs.
  - exact Hs.
  - rewrite addImages_snoc. apply handleImageCapture_bound.
Qed.

Lemma last_three {A : Type} (l : list A) :
  3 < length l ->
  exists older a b c, l = older ++ [a; b; c] /\ JS.slice_last 3 l = [a; b; c].
Proof.
  intros Hlen.
  pose proof (slice_last_length 3 l) as Hn.
  pose proof (slice_last_split 3 l) as Hsplit.
  destruct (JS.slice_last 3 l) as [| a [| b [| c [| d rest]]]];
    cbn [length] in Hn; try lia.
  exists (firstn (length l - 3) l), a, b, c. split; [exact Hsplit | reflexivity].
Qed.

(** C1. Starting from the empty session, after any sequence of captures
    with non-empty payloads the images are the last three payloads of the
    sequence, oldest first (all of them when fewer than three were
    captured); the list never holds more than three entries at any point
    of the sequence; and once more than three were captured the three
    survivors are exactly the three most recent payloads. *)
Theorem addImage_keeps_latest_three (payloads : list string) :
  Forall nonEmpty payloads ->
  images (addImages payloads initialState) = JS.slice_last 3 payloads /\
  (forall n, length (images (addImages (firstn n payloads) initialState)) <= 3) /\
  (3 < length payloads ->
   exists older a b c,
     payloads = older ++ [a; b; c] /\
     images (addImages payloads initialState) = [a; b; c]).
Proof.
  intros Hall.
  assert (Himg : images (addImages payloads initialState) = JS.slice_last 3 payloads).
  { rewrite addImages_images; simpl; auto with arith. }
  split; [exact Himg |]. split.
  - intros n. apply addImages_bound. simpl. lia.
  - intros Hlen. rewrite Himg. now apply last_three.
Qed.

(** The scenario of the specification: four captures leave the last three. *)
Example four_captures :
  images (addImages ["img1"; "img2"; "img3"; "img4"] initialState)
  = ["img2"; "img3"; "img4"].
Proof. reflexivity. Qed.

Lemma addImage_keeps_latest_three_witness :
  Forall nonEmpty ["img1"; "img2"; "img3"; "img4"] /\
  images (addImages ["img1"; "img2"; "img3"; "img4"] initialState)
  = JS.slice_last 3 ["img1"; "img2"; "img3"; "img4"].
Proof.
  assert (H : Forall nonEmpty ["img1"; "img2"; "img3"; "img4"]).
  { repeat constructor; discriminate. }
  split; [exact H |].
  exact (proj1 (addImage_keeps_latest_three _ H)).
Defined.

(** C2. After a capture with any payload, and after a removal at any
    index, in range or not, the message list is empty, whatever the state
    was before. *)
Theorem messages_cleared_on_image_change (s : State) :
  (forall payload, messages (handleImageCapture payload s) = []) /\
  (forall index, messages (removeImage index s) = []).
Proof.
  split.
  - intros payload. unfold handleImageCapture.
    destruct (String.eqb payload EmptyString); reflexivity.
  - intros index. reflexivity.
Qed.

(** In range, [removeImage] takes out exactly the entry at the index. *)
Lemma removeImage_in_range (n : nat) (s : State) :
  n < length (images s) ->
  images (removeImage (Z.of_nat n) s) = firstn n (images s) ++ skipn (S n) (images s).
Proof.
  intros Hn. unfold removeImage, setMessages, setImages, JS.filter.
  cbn [images].
  transitivity (JS.filter_from (fun (_ : string) j => negb (j =? 0 + n)) 0 (images s)).
  - apply filter_from_ext. intros j x _. f_equal.
    destruct (Z.eqb_spec (Z.of_nat j) (Z.of_nat n)) as [Heq | Hneq];
      symmetry; [apply Nat.eqb_eq | apply Nat.eqb_neq]; lia.
  - now apply filter_from_drop_one.
Qed.

(** C6. [removeImage] is a total function of the index and the state: the
    [filter] it runs has no failing case. At an index outside the array,
    negative or at least its length, the images are left as they were and
    the busy flag is untouched. *)
Theorem removeImage_out_of_range (index : Z) (s : State) :
  (index < 0 \/ Z.of_nat (length (images s)) <= index)%Z ->
  images (removeImage index s) = images s /\
  isLoading (removeImage index s) = isLoading s.
Proof.
  intros Hout. split; [| reflexivity].
  unfold removeImage, setMessages, setImages, JS.filter.
  cbn [images].
  apply filter_from_all. intros j x Hj.
  apply negb_true_iff, Z.eqb_neq. lia.
Qed.

Lemma removeImage_out_of_range_witness :
  let s := {| images := ["a"; "b"]; messages := []; isLoading := false |} in
  (5 < 0 \/ Z.of_nat (length (images s)) <= 5)%Z /\
  images (removeImage 5 s) = ["a"; "b"].
Proof.
  intros s.
  assert (H : (5 < 0 \/ Z.of_nat (length (images s)) <= 5)%Z).
  { right. simpl. lia. }
  split; [exact H |].
  exact (proj1 (removeImage_out_of_range 5 s H)).
Defined.

(** C7. The empty payload is the clear-all sentinel: from any state it
    empties both the images and the messages. *)
Theorem clear_sentinel_resets (s : State) :
  images (handleImageCapture EmptyString s) = [] /\
  messages (handleImageCapture EmptyString s) = [].
Proof. split; reflexivity. Qed.

(** ** Sending a message *)

Lemma images_nonempty_length (s : State) :
  images s <> [] -> (length (images s) =? 0) = false.
Proof.
  intros Hne. apply Nat.eqb_neq. destruct (images s); [contradiction | discriminate].
Qed.

Lemma first_of_nonempty {A : Type} (l : list A) :
  l <> [] -> exists x, JS.first l = Some x.
Proof. destruct l as [| x rest]; [contradiction | now exists x]. Qed.

Lemma afterReply_success (response : ChatResponse) (clk : Clock) (st : State) :
  success response = true ->
  exists aiMessage,
    afterReply (Resolved response) clk st
    = setIsLoading false (setMessages (fun prev => prev ++ [aiMessage]) st) /\
    role aiMessage = assistant /\
    content aiMessage = message response.
Proof.
  intros Hok. unfold afterReply. rewrite Hok.
  eexists. split; [reflexivity |]. split; reflexivity.
Qed.

Lemma afterReply_failure (o : Outcome) (clk : Clock) (st : State) :
  failed o -> afterReply o clk st = setIsLoading false st.
Proof.
  intros Hfail. unfold afterReply.
  destruct o as [response |]; simpl in Hfail; [now rewrite Hfail | reflexivity].
Qed.

(** C3. With at least one image, [handleSendMessage] suspends on one call
    after it has appended one user message, which carries the text and
    [images[0]], and has set the busy flag; when the call resolves with
    [success], one assistant message carrying the returned text is appended
    to the messages of that moment and the busy flag is cleared. *)
Theorem sendMessage_turn (clk : Clock) (text : string) (s : State) :
  images s <> [] ->
  exists s1 req resume userMessage img0,
    handleSendMessage clk text s = Awaiting s1 req resume /\
    messages s1 = messages s ++ [userMessage] /\
    role userMessage = user /\
    content userMessage = text /\
    JS.first (images s) = Some img0 /\
    imageUrl userMessage = Some img0 /\
    images s1 = images s /\
    isLoading s1 = true /\
    forall response clk' st,
      success response = true ->
      exists aiMessage,
        messages (resume (Resolved response) clk' st) = messages st ++ [aiMessage] /\
        role aiMessage = assistant /\
        content aiMessage = message response /\
        images (resume (Resolved response) clk' st) = images st /\
        isLoading (resume (Resolved response) clk' st) = false.
Proof.
  intros Hne.
  destruct (first_of_nonempty (images s) Hne) as [img0 Himg0].
  unfold handleSendMessage. rewrite (images_nonempty_length s Hne).
  do 5 eexists. split; [reflexivity |].
  cbn [messages images isLoading setMessages setIsLoading role content imageUrl].
  repeat (split; [first [reflexivity | exact Himg0] |]).
  intros response clk' st Hok.
  destruct (afterReply_success response clk' st Hok) as (ai & -> & Hrole & Hcontent).
  exists ai. repeat split; assumption.
Qed.

(** The scenario of the specification: one capture, one question, one
    successful reply. *)
Example one_turn :
  let final :=
    run [AddImage "img1"; SendMessage clock0 "what is this"; Settle (Resolved aCat) clock1]
        initialSession in
  map (fun m => (role m, content m)) (messages (ui final))
  = [(user, "what is this"); (assistant, "A cat")] /\
  isLoading (ui final) = false /\
  length (calls final) = 1.
Proof. repeat split. Qed.

Lemma sendMessage_turn_witness :
  images oneImage <> [] /\
  exists s1 req resume,
    handleSendMessage clock0 "what is this" oneImage = Awaiting s1 req resume /\
    isLoading s1 = true.
Proof.
  assert (H : images oneImage <> []) by discriminate.
  split; [exact H |].
  destruct (sendMessage_turn clock0 "what is this" oneImage H)
    as (s1 & req & resume & um & img0 & Hrun & _ & _ & _ & _ & _ & _ & Hbusy & _).
  exists s1, req, resume. split; [exact Hrun | exact Hbusy].
Defined.

(** *** Without an image *)

(** A second message sent without an image does not add a second prompt
    after the first: the message list is set to the new prompt alone. *)
Lemma sendMessage_without_image_not_appended :
  images promptedOnce = [] /\
  length (messages promptedOnce) = 1 /\
  (exists s',
     handleSendMessage clock1 "and this" promptedOnce = Returned s' /\
     length (messages s') = 1) /\
  ~ appendsOnePrompt clock1 "and this" promptedOnce.
Proof.
  split; [reflexivity |]. split; [reflexivity |].
  split; [eexists; split; reflexivity |].
  intros (s' & prompt & Hrun & Hmsgs & _).
  vm_compute in Hrun. injection Hrun as <-.
  apply (f_equal (@length Message)) in Hmsgs.
  rewrite length_app in Hmsgs. vm_compute in Hmsgs. discriminate.
Qed.

(** C4, as the handler implements it. With no image, [handleSendMessage]
    returns without suspending on a call, and sets the message list to one
    assistant message, the request for an image; earlier messages are
    replaced, so this is an append exactly when there were none. Images and
    the busy flag are untouched, and in a session no call is started or
    recorded. *)
Theorem sendMessage_without_image (clk : Clock) (text : string) (s : State) :
  images s = [] ->
  exists s' prompt,
    handleSendMessage clk text s = Returned s' /\
    messages s' = [prompt] /\
    role prompt = assistant /\
    content prompt = noImagePrompt /\
    (messages s = [] -> messages s' = messages s ++ [prompt]) /\
    images s' = images s /\
    isLoading s' = isLoading s /\
    forall pend cs,
      let ss := {| ui := s; pending := pend; calls := cs |} in
      calls (step ss (SendMessage clk text)) = cs /\
      pending (step ss (SendMessage clk text)) = pend.
Proof.
  intros Hnone. unfold step, handleSendMessage. cbn [ui pending calls].
  rewrite Hnone. cbn [length Nat.eqb].
  do 2 eexists. split; [reflexivity |].
  cbn [messages images isLoading setMessages role content].
  repeat (split; [reflexivity |]).
  split; [intros ->; reflexivity |].
  split; [now rewrite Hnone |]. split; [reflexivity |].
  intros pend cs. split; reflexivity.
Qed.

Lemma sendMessage_without_image_witness :
  images initialState = [] /\
  exists s',
    handleSendMessage clock0 "what is this" initialState = Returned s' /\
    length (messages s') = 1.
Proof.
  assert (H : images initialState = []) by reflexivity.
  split; [exact H |].
  destruct (sendMessage_without_image clock0 "what is this" initialState H)
    as (s' & prompt & Hrun & Hmsgs & _).
  exists s'. split; [exact Hrun |]. rewrite Hmsgs. reflexivity.
Defined.

(** *** Failure of the call *)

(** C5. With at least one image, when the call rejects or resolves with
    [success = false], the handler adds nothing after the user message of
    the turn: the messages are the earlier ones followed by that user
    message (that message alone when there were none), and the busy flag is
    cleared. Whatever the state is when the failure arrives, its messages
    are left as they are. *)
Theorem sendMessage_failure_keeps_user_message
    (clk clk' : Clock) (text : string) (s : State) (o : Outcome) :
  images s <> [] ->
  failed o ->
  exists s1 req resume userMessage,
    handleSendMessage clk text s = Awaiting s1 req resume /\
    messages (resume o clk' s1) = messages s ++ [userMessage] /\
    role userMessage = user /\
    content userMessage = text /\
    (messages s = [] -> messages (resume o clk' s1) = [userMessage]) /\
    isLoading (resume o clk' s1) = false /\
    forall st,
      messages (resume o clk' st) = messages st /\
      isLoading (resume o clk' st) = false.
Proof.
  intros Hne Hfail.
  unfold handleSendMessage. rewrite (images_nonempty_length s Hne).
  do 4 eexists. split; [reflexivity |].
  rewrite !(afterReply_failure o clk' _ Hfail).
  cbn [messages isLoading setMessages setIsLoading role content].
  repeat (split; [reflexivity |]).
  split; [intros ->; reflexivity |]. split; [reflexivity |].
  intros st. rewrite (afterReply_failure o clk' st Hfail). split; reflexivity.
Qed.

(** The scenario of the specification: the call throws. *)
Example call_throws :
  let final :=
    run [AddImage "img1"; SendMessage clock0 "what is this"; Settle Rejected clock1]
        initialSession in
  map (fun m => (role m, content m)) (messages (ui final)) = [(user, "what is this")] /\
  isLoading (ui final) = false.
Proof. split; reflexivity. Qed.

Lemma sendMessage_failure_keeps_user_message_witness :
  images oneImage <> [] /\
  failed (Resolved serverError) /\
  exists s1 req resume,
    handleSendMessage clock0 "what is this" oneImage = Awaiting s1 req resume /\
    length (messages (resume (Resolved serverError) clock1 s1)) = 1 /\
    isLoading (resume (Resolved serverError) clock1 s1) = false.
Proof.
  assert (H : images oneImage <> []) by discriminate.
  assert (F : failed (Resolved serverError)) by reflexivity.
  split; [exact H |]. split; [exact F |].
  destruct (sendMessage_failure_keeps_user_message
              clock0 clock1 "what is this" oneImage (Resolved serverError) H F)
    as (s1 & req & resume & um & Hrun & Hmsgs & _ & _ & _ & Hbusy & _).
  exists s1, req, resume. split; [exact Hrun |]. split; [| exact Hbusy].
  rewrite Hmsgs. reflexivity.
Defined.

(** *** What is sent to the server action *)

(** C8. With more than one image, the text passed to the call is the
    user's text behind the prefix [I have N images to analyze. ], [N] being
    the number of images in decimal, and the one image passed is
    [images[0]]. *)
Theorem sendMessage_multiple_images (clk : Clock) (text : string) (s : State) :
  1 < length (images s) ->
  exists s1 req resume img0,
    handleSendMessage clk text s = Awaiting s1 req resume /\
    call_message req
    = ("I have " ++ JS.toString (Z.of_nat (length (images s)))
         ++ " images to analyze. " ++ text)%string /\
    JS.first (images s) = Some img0 /\
    call_imageUrl req = Some img0.
Proof.
  intros Hmany.
  assert (Hne : images s <> []) by (intros E; rewrite E in Hmany; simpl in Hmany; lia).
  destruct (first_of_nonempty (images s) Hne) as [img0 Himg0].
  unfold handleSendMessage. rewrite (images_nonempty_length s Hne).
  replace (1 <? length (images s)) with true by (symmetry; now apply Nat.ltb_lt).
  exists (setMessages
            (fun _ => messages s ++
               [{| id := JS.toString (Date_now clk); role := user; content := text;
                   timestamp := new_Date clk; imageUrl := JS.first (images s);
                   audioUrl := None |}])
            (setIsLoading true s)).
  do 2 eexists. exists img0.
  split; [reflexivity |]. cbn [call_message call_imageUrl].
  split; [reflexivity |]. split; exact Himg0.
Qed.

(** With exactly one image the text goes out as the user wrote it. *)
Lemma sendMessage_single_image (clk : Clock) (text : string) (s : State) :
  length (images s) = 1 ->
  exists s1 req resume,
    handleSendMessage clk text s = Awaiting s1 req resume /\
    call_message req = text.
Proof.
  intros Hone. unfold handleSendMessage. rewrite Hone. cbn [Nat.eqb Nat.ltb Nat.leb].
  do 3 eexists. split; reflexivity.
Qed.

Lemma sendMessage_multiple_images_witness :
  1 < length (images twoImages) /\
  exists s1 req resume,
    handleSendMessage clock0 "what is this" twoImages = Awaiting s1 req resume /\
    call_message req = "I have 2 images to analyze. what is this" /\
    call_imageUrl req = Some "img1".
Proof.
  assert (H : 1 < length (images twoImages)) by (simpl; lia).
  split; [exact H |].
  destruct (sendMessage_multiple_images clock0 "what is this" twoImages H)
    as (s1 & req & resume & img0 & Hrun & Hmsg & Hfirst & Himg).
  exists s1, req, resume. split; [exact Hrun |]. split.
  - rewrite Hmsg. reflexivity.
  - rewrite Himg, <- Hfirst. reflexivity.
Defined.

(** The server action reads only the last [historyWindow] entries of the
    history it is given. *)
Lemma recentHistory_window (older recent : list HistoryEntry) :
  length recent = ChatAction.historyWindow ->
  ChatAction.recentHistory (older ++ recent) = ChatAction.recentHistory recent.
Proof.
  intros Hlen. unfold ChatAction.recentHistory, ChatAction.recentHistoryOf.
  rewrite slice_last_app by lia. reflexivity.
Qed.

(** C9. With at least one image, the history passed to the call is the
    role and content of every message of the session at that moment, the
    earlier ones oldest first followed by the user message just appended,
    entry by entry in the same positions; its length is one more than the
    number of earlier messages, whatever that number is, so nothing is cut
    in the handler. The cut is in the server action, which reads the last
    six entries only. *)
Theorem sendMessage_history_projection (clk : Clock) (text : string) (s : State) :
  images s <> [] ->
  exists s1 req resume,
    handleSendMessage clk text s = Awaiting s1 req resume /\
    call_history req
    = toHistory (messages s) ++ [{| entry_role := user; entry_content := text |}] /\
    (forall n,
       nth_error (call_history req) n
       = option_map
           (fun m => {| entry_role := role m; entry_content := content m |})
           (nth_error (messages s1) n)) /\
    length (call_history req) = S (length (messages s)) /\
    (forall older recent,
       call_history req = older ++ recent ->
       length recent = ChatAction.historyWindow ->
       ChatAction.recentHistory (call_history req) = ChatAction.recentHistory recent).
Proof.
  intros Hne.
  unfold handleSendMessage. rewrite (images_nonempty_length s Hne).
  do 3 eexists. split; [reflexivity |].
  cbn [call_history messages setMessages setIsLoading].
  split; [| split; [| split]].
  - unfold toHistory. rewrite map_app. reflexivity.
  - intros n. unfold toHistory. apply nth_error_map.
  - unfold toHistory. rewrite length_map, length_app. simpl. lia.
  - intros older recent -> Hlen. now apply recentHistory_window.
Qed.

Lemma sendMessage_history_projection_witness :
  images longSession <> [] /\
  exists s1 req resume,
    handleSendMessage clock0 "what is this" longSession = Awaiting s1 req resume /\
    length (call_history req) = 11.
Proof.
  assert (H : images longSession <> []) by discriminate.
  split; [exact H |].
  destruct (sendMessage_history_projection clock0 "what is this" longSession H)
    as (s1 & req & resume & Hrun & _ & _ & Hlen & _).
  exists s1, req, resume. split; [exact Hrun |]. rewrite Hlen. reflexivity.
Defined.

(** ** A reset while a call is outstanding *)

(** The handler has no such guard: the reply lands in the cleared
    session. *)
Lemma reply_after_reset_is_appended :
  map (fun m => (role m, content m))
      (messages (ui (resetInFlight oneImage clock0 "what is this" (Resolved aCat) clock1)))
  = [(assistant, "A cat")] /\
  ~ supersededReplyDiscarded oneImage clock0 "what is this" aCat clock1.
Proof.
  split; [reflexivity |].
  intros Hclaim.
  assert (Hempty := Hclaim ltac:(discriminate) eq_refl).
  vm_compute in Hempty. discriminate.
Qed.

Lemma afterReply_frame (o : Outcome) (clk : Clock) (st : State) :
  images (afterReply o clk st) = images st /\
  isLoading (afterReply o clk st) = false.
Proof.
  unfold afterReply.
  destruct o as [response |]; [destruct (success response) |]; split; reflexivity.
Qed.

Lemma handleSendMessage_suspends (clk : Clock) (text : string) (s : State) :
  images s <> [] ->
  exists s1 req, handleSendMessage clk text s = Awaiting s1 req afterReply.
Proof.
  intros Hne. unfold handleSendMessage. rewrite (images_nonempty_length s Hne).
  do 2 eexists. reflexivity.
Qed.

Lemma resetInFlight_ui (s : State) (clk clk' : Clock) (text : string) (o : Outcome) :
  images s <> [] ->
  exists s1,
    ui (resetInFlight s clk text o clk') = afterReply o clk' (handleImageCapture EmptyString s1).
Proof.
  intros Hne.
  destruct (handleSendMessage_suspends clk text s Hne) as (s1 & req & Hrun).
  exists s1. unfold resetInFlight, run.
  cbn [fold_left step ui pending calls]. rewrite Hrun. reflexivity.
Qed.

(** C10, as the handler implements it. When the images are cleared while
    a call is outstanding, the messages are cleared with them, and the
    reply is applied to that cleared session: on success the messages are
    exactly the one assistant reply of the superseded call, on failure they
    stay empty; either way the images stay empty and the busy flag is
    cleared. *)
Theorem reply_after_reset (s : State) (clk clk' : Clock) (text : string) (o : Outcome) :
  images s <> [] ->
  let final := ui (resetInFlight s clk text o clk') in
  images final = [] /\
  isLoading final = false /\
  (failed o -> messages final = []) /\
  (forall response,
     o = Resolved response ->
     success response = true ->
     exists aiMessage,
       messages final = [aiMessage] /\
       role aiMessage = assistant /\
       content aiMessage = message response).
Proof.
  intros Hne final. subst final.
  destruct (resetInFlight_ui s clk clk' text o Hne) as [s1 ->].
  destruct (afterReply_frame o clk' (handleImageCapture EmptyString s1)) as [Himgs Hbusy].
  split; [rewrite Himgs; reflexivity |]. split; [exact Hbusy |]. split.
  - intros Hfail. rewrite (afterReply_failure o clk' _ Hfail). reflexivity.
  - intros response -> Hok.
    destruct (afterReply_success response clk' (handleImageCapture EmptyString s1) Hok)
      as (ai & Heq & Hrole & Hcontent).
    exists ai. rewrite Heq. repeat split; assumption.
Qed.

Lemma reply_after_reset_witness :
  images oneImage <> [] /\
  images (ui (resetInFlight oneImage clock0 "what is this" (Resolved aCat) clock1)) = [] /\
  isLoading (ui (resetInFlight oneImage clock0 "what is this" (Resolved aCat) clock1)) = false.
Proof.
  assert (H : images oneImage <> []) by discriminate.
  split; [exact H |].
  destruct (reply_after_reset oneImage clock0 clock1 "what is this" (Resolved aCat) H)
    as (Himgs & Hbusy & _).
  split; [exact Himgs | exact Hbusy].
Defined.

(** * Further properties of the session handlers *)

(** ** One capture, one removal *)

(** X1. At an index inside the array, [removeImage] takes out exactly the
    entry at that index: the entries before and after it stay, in order,
    the list is one shorter, and the messages are cleared. *)
Theorem removeImage_removes_one (index : Z) (s : State) :
  (0 <= index < Z.of_nat (length (images s)))%Z ->
  images (removeImage index s)
  = firstn (Z.to_nat index) (images s) ++ skipn (S (Z.to_nat index)) (images s) /\
  S (length (images (removeImage index s))) = length (images s) /\
  (forall n, n < Z.to_nat index ->
     nth_error (images (removeImage index s)) n = nth_error (images s) n) /\
  (forall n, Z.to_nat index <= n ->
     nth_error (images (removeImage index s)) n = nth_error (images s) (S n)).
Proof.
  intros Hin.
  assert (Hn : Z.to_nat index < length (images s)) by lia.
  pose proof (removeImage_in_range (Z.to_nat index) s Hn) as Himgs.
  rewrite Z2Nat.id in Himgs by lia.
  assert (Hlen : length (firstn (Z.to_nat index) (images s)) = Z.to_nat index)
    by (rewrite length_firstn; lia).
  split; [exact Himgs |]. rewrite Himgs. split; [| split].
  - rewrite length_app, length_skipn, Hlen. lia.
  - intros n Hlt. rewrite nth_error_app1 by lia.
    rewrite nth_error_firstn.
    replace (n <? Z.to_nat index) with true by (symmetry; now apply Nat.ltb_lt).
    reflexivity.
  - intros n Hge. rewrite nth_error_app2 by lia.
    rewrite Hlen, nth_error_skipn. f_equal. lia.
Qed.

Lemma removeImage_removes_one_witness :
  let s := {| images := ["a"; "b"; "c"]; messages := []; isLoading := false |} in
  (0 <= 1 < Z.of_nat (length (images s)))%Z /\
  images (removeImage 1 s) = ["a"; "c"].
Proof.
  intros s.
  assert (H : (0 <= 1 < Z.of_nat (length (images s)))%Z) by (simpl; lia).
  split; [exact H |].
  exact (proj1 (removeImage_removes_one 1 s H)).
Defined.

(** X2. A capture with a non-empty payload appends it as the newest
    image. With fewer than three images nothing is evicted; with exactly
    three, the oldest one alone is evicted. *)
Theorem capture_appends_or_evicts_oldest (payload : string) (s : State) :
  nonEmpty payload ->
  (length (images s) < 3 ->
   images (handleImageCapture payload s) = images s ++ [payload]) /\
  (length (images s) = 3 ->
   images (handleImageCapture payload s) = tl (images s) ++ [payload]).
Proof.
  intros Hne. rewrite (handleImageCapture_images payload s Hne). split.
  - intros Hlt. apply slice_last_short. rewrite length_app. simpl. lia.
  - intros Hfull. unfold JS.slice_last. rewrite length_app, Hfull. simpl.
    destruct (images s) as [| a rest]; [discriminate | reflexivity].
Qed.

Lemma capture_appends_or_evicts_oldest_witness :
  let s := {| images := ["a"; "b"; "c"]; messages := []; isLoading := false |} in
  nonEmpty "d" /\ images (handleImageCapture "d" s) = ["b"; "c"; "d"].
Proof.
  intros s.
  assert (H : nonEmpty "d") by discriminate.
  split; [exact H |].
  exact (proj2 (capture_appends_or_evicts_oldest "d" s H) eq_refl).
Defined.

(** ** Invariants of the event sequences *)

Lemma filter_from_Forall {A : Type} (P : A -> Prop) (f : A -> nat -> bool) (l : list A) :
  forall i, Forall P l -> Forall P (JS.filter_from f i l).
Proof.
  induction l as [| x rest IH]; intros i Hall; simpl.
  - constructor.
  - inversion Hall as [| ? ? Hx Hrest]; subst.
    destruct (f x i); [constructor; [exact Hx |] |]; now apply IH.
Qed.

Lemma slice_last_Forall {A : Type} (P : A -> Prop) (k : nat) (l : list A) :
  Forall P l -> Forall P (JS.slice_last k l).
Proof.
  intros Hall. unfold JS.slice_last.
  rewrite <- (firstn_skipn (length l - k) l) in Hall.
  now apply Forall_app in Hall.
Qed.

Lemma handleImageCapture_nonEmpty (payload : string) (s : State) :
  Forall nonEmpty (images s) -> Forall nonEmpty (images (handleImageCapture payload s)).
Proof.
  intros Hall. unfold handleImageCapture.
  destruct (String.eqb_spec payload EmptyString) as [Heq | Hne]; simpl.
  - constructor.
  - assert (Hnew : Forall nonEmpty (images s ++ [payload])).
    { apply Forall_app. split; [exact Hall | now repeat constructor]. }
    destruct (3 <? length (images s ++ [payload]));
      [now apply slice_last_Forall | exact Hnew].
Qed.

Lemma removeImage_frame (index : Z) (s : State) :
  length (images (removeImage index s)) <= length (images s) /\
  (Forall nonEmpty (images s) -> Forall nonEmpty (images (removeImage index s))).
Proof.
  unfold removeImage, setMessages, setImages, JS.filter. cbn [images]. split.
  - apply filter_from_length.
  - apply filter_from_Forall.
Qed.

Lemma afterReply_messages (o : Outcome) (clk : Clock) (st : State) :
  Forall wellFormedMessage (messages st) ->
  Forall wellFormedMessage (messages (afterReply o clk st)).
Proof.
  intros Hall. unfold afterReply.
  destruct o as [response |]; [destruct (success response) |]; simpl;
    try exact Hall.
  apply Forall_app. split; [exact Hall |].
  repeat constructor.
Qed.

Lemma step_sessionInv (ss : Session) (e : Event) :
  sessionInv ss -> sessionInv (step ss e).
Proof.
  intros (Hlen & Hne & Hmsgs & Hcalls & Hpend).
  destruct e as [payload | index | clk text | o clk]; unfold sessionInv.
  - cbn [step ui pending calls].
    split; [apply handleImageCapture_bound |].
    split; [now apply handleImageCapture_nonEmpty |].
    split; [| split; assumption].
    unfold handleImageCapture.
    destruct (String.eqb payload EmptyString); constructor.
  - cbn [step ui pending calls].
    destruct (removeImage_frame index (ui ss)) as [Hshrink Hkeep].
    split; [lia |]. split; [now apply Hkeep |].
    split; [constructor | split; assumption].
  - cbn [step]. unfold handleSendMessage.
    destruct (images (ui ss)) as [| img0 rest] eqn:Himgs; cbn [length Nat.eqb].
    + cbn [ui pending calls images messages setMessages].
      rewrite Himgs.
      split; [exact Hlen |]. split; [exact Hne |].
      split; [| split; assumption].
      repeat constructor.
    + cbn [ui pending calls images messages setMessages setIsLoading].
      rewrite Himgs.
      assert (Himg0 : nonEmpty img0) by now inversion Hne.
      split; [exact Hlen |]. split; [exact Hne |].
      split; [| split].
      * apply Forall_app. split; [exact Hmsgs |].
        repeat constructor. exists img0. split; [reflexivity | exact Himg0].
      * apply Forall_app. split; [exact Hcalls |].
        repeat constructor. exists img0. split; [reflexivity | exact Himg0].
      * apply Forall_app. split; [exact Hpend |]. now repeat constructor.
  - cbn [step]. destruct (pending ss) as [| [req resume] rest] eqn:Hp.
    + unfold sessionInv. rewrite Hp. repeat split; assumption.
    + inversion Hpend as [| ? ? Hhead Hrest]; subst. simpl in Hhead. subst resume.
      cbn [ui pending calls].
      destruct (afterReply_frame o clk (ui ss)) as [-> _].
      split; [exact Hlen |]. split; [exact Hne |].
      split; [now apply afterReply_messages |]. split; assumption.
Qed.

Lemma run_sessionInv (evs : list Event) (ss : Session) :
  sessionInv ss -> sessionInv (run evs ss).
Proof.
  revert ss. induction evs as [| e evs IH]; intros ss Hinv; simpl.
  - exact Hinv.
  - apply IH. now apply step_sessionInv.
Qed.

Lemma initialSession_inv : sessionInv initialSession.
Proof.
  unfold sessionInv. simpl.
  split; [lia |]. repeat split; constructor.
Qed.

(** X3. Whatever the user does and however the calls settle, in any
    order, the session started empty never holds more than three images,
    and never holds the empty string as an image. *)
Theorem images_bounded_and_nonempty (evs : list Event) :
  length (images (ui (run evs initialSession))) <= 3 /\
  Forall nonEmpty (images (ui (run evs initialSession))).
Proof.
  destruct (run_sessionInv evs initialSession initialSession_inv)
    as (Hlen & Hne & _).
  split; assumption.
Qed.

(** X4. In every session reached from the empty one, each user message
    shows a non-empty image, each assistant message shows none, no message
    has audio attached, and every call made to the server action was given
    a non-empty image. *)
Theorem messages_and_calls_carry_image (evs : list Event) :
  Forall wellFormedMessage (messages (ui (run evs initialSession))) /\
  Forall callHasImage (calls (run evs initialSession)).
Proof.
  destruct (run_sessionInv evs initialSession initialSession_inv)
    as (_ & _ & Hmsgs & Hcalls & _).
  split; assumption.
Qed.

(** ** Conversations *)

Lemma one_exchange (x : Exchange) (ss : Session) :
  images (ui ss) <> [] ->
  pending ss = [] ->
  success (ex_reply x) = true ->
  exists s' req,
    run (exchangeEvents x) ss = {| ui := s'; pending := []; calls := calls ss ++ [req] |} /\
    toHistory (messages s') = toHistory (messages (ui ss)) ++ exchangeEntries x /\
    call_history req
    = toHistory (messages (ui ss)) ++ [{| entry_role := user; entry_content := ex_text x |}] /\
    images s' = images (ui ss) /\
    isLoading s' = false.
Proof.
  intros Hne Hpend Hok.
  unfold exchangeEvents, run. cbn [fold_left step].
  unfold handleSendMessage. rewrite (images_nonempty_length (ui ss) Hne).
  rewrite Hpend. cbn [ui pending calls app].
  do 2 eexists. split; [reflexivity |].
  unfold afterReply. rewrite Hok.
  cbn [messages images isLoading setMessages setIsLoading call_history].
  unfold toHistory, exchangeEntries. rewrite !map_app, <- app_assoc.
  repeat split.
Qed.

(** The calls made are only ever added to. *)
Lemma step_calls_prefix (ss : Session) (e : Event) :
  exists more, calls (step ss e) = calls ss ++ more.
Proof.
  destruct e as [payload | index | clk text | o clk]; cbn [step].
  - exists []. now rewrite app_nil_r.
  - exists []. now rewrite app_nil_r.
  - destruct (handleSendMessage clk text (ui ss)) as [s' | s' req resume].
    + exists []. now rewrite app_nil_r.
    + now exists [req].
  - destruct (pending ss) as [| [req resume] rest]; exists []; now rewrite app_nil_r.
Qed.

Lemma run_calls_prefix (evs : list Event) (ss : Session) :
  exists more, calls (run evs ss) = calls ss ++ more.
Proof.
  revert ss. induction evs as [| e evs IH]; intros ss; simpl.
  - exists []. now rewrite app_nil_r.
  - destruct (IH (step ss e)) as [more2 ->].
    destruct (step_calls_prefix ss e) as [more1 ->].
    exists (more1 ++ more2). now rewrite app_assoc.
Qed.

(** X5. A conversation of complete, successful exchanges over a fixed,
    non-empty set of images builds the messages up two by two: after it,
    the role and content of the messages are those before it followed by
    each exchange's question and answer in order; the call of the [k]-th
    exchange was given everything said before it plus its own question;
    the images are untouched and no call is left outstanding. *)
Theorem conversation_accumulates (xs : list Exchange) (ss : Session) :
  images (ui ss) <> [] ->
  pending ss = [] ->
  Forall (fun x => success (ex_reply x) = true) xs ->
  let final := run (flat_map exchangeEvents xs) ss in
  toHistory (messages (ui final))
  = toHistory (messages (ui ss)) ++ flat_map exchangeEntries xs /\
  images (ui final) = images (ui ss) /\
  pending final = [] /\
  length (calls final) = length (calls ss) + length xs /\
  (forall k x,
     nth_error xs k = Some x ->
     option_map call_history (nth_error (calls final) (length (calls ss) + k))
     = Some (toHistory (messages (ui ss))
               ++ flat_map exchangeEntries (firstn k xs)
               ++ [{| entry_role := user; entry_content := ex_text x |}])).
Proof.
  revert ss. induction xs as [| x xs IH]; intros ss Hne Hpend Hall final; subst final.
  - simpl. rewrite app_nil_r. repeat split; try assumption; try lia.
    intros k x Hk. destruct k; discriminate.
  - inversion Hall as [| ? ? Hok Hrest]; subst.
    cbn [flat_map]. unfold run. rewrite fold_left_app. fold (run (exchangeEvents x) ss).
    fold (run (flat_map exchangeEvents xs) (run (exchangeEvents x) ss)).
    destruct (one_exchange x ss Hne Hpend Hok)
      as (s' & req & -> & Hhist & Hreq & Himgs & _).
    set (ss' := {| ui := s'; pending := []; calls := calls ss ++ [req] |}).
    assert (Hne' : images (ui ss') <> []) by (cbn [ss' ui]; now rewrite Himgs).
    destruct (IH ss' Hne' eq_refl Hrest) as (Hm & Hi & Hp & Hc & Hk).
    cbn [ss' ui calls] in Hm, Hi, Hc, Hk.
    split; [rewrite Hm, Hhist, <- app_assoc; reflexivity |].
    split; [now rewrite Hi |]. split; [exact Hp |].
    split; [rewrite Hc, length_app; simpl; lia |].
    intros k y Hy. destruct k as [| k].
    + injection Hy as <-. cbn [firstn flat_map app].
      assert (Hlen : length (calls ss) + 0 < length (calls ss') + 0)
        by (cbn [ss' calls]; rewrite length_app; simpl; lia).
      pose proof (run_calls_prefix (flat_map exchangeEvents xs) ss') as [more Hmore].
      rewrite Hmore. cbn [ss' calls]. rewrite <- app_assoc.
      rewrite nth_error_app2 by lia.
      replace (length (calls ss) + 0 - length (calls ss)) with 0 by lia.
      simpl. now rewrite Hreq.
    + specialize (Hk k y Hy).
      rewrite length_app in Hk. simpl in Hk.
      replace (length (calls ss) + S k) with (length (calls ss) + 1 + k) by lia.
      rewrite Hk, Hhist. cbn [firstn flat_map].
      rewrite <- !app_assoc. reflexivity.
Qed.

Lemma conversation_accumulates_witness :
  let x1 := {| ex_sent := clock0; ex_text := "what is this"; ex_reply := aCat;
               ex_received := clock1 |} in
  let x2 := {| ex_sent := clock1; ex_text := "what colour"; ex_reply := aCat;
               ex_received := clock1 |} in
  let ss := {| ui := oneImage; pending := []; calls := [] |} in
  images (ui ss) <> [] /\
  Forall (fun x => success (ex_reply x) = true) [x1; x2] /\
  length (toHistory (messages (ui (run (flat_map exchangeEvents [x1; x2]) ss)))) = 4.
Proof.
  intros x1 x2 ss.
  assert (H : images (ui ss) <> []) by discriminate.
  assert (F : Forall (fun x => success (ex_reply x) = true) [x1; x2])
    by (repeat constructor).
  split; [exact H |]. split; [exact F |].
  rewrite (proj1 (conversation_accumulates [x1; x2] ss H eq_refl F)).
  reflexivity.
Defined.

(** ** Message ids *)

Lemma to_int_not_nil (z : Z) :
  Z.to_int z <> Decimal.Pos Decimal.Nil /\ Z.to_int z <> Decimal.Neg Decimal.Nil.
Proof.
  split; intros E; pose proof (f_equal Z.of_int E) as E';
    rewrite DecimalZ.of_to in E'; simpl in E'; subst z; discriminate E.
Qed.

(** The decimal rendering of an integer determines the integer. *)
Lemma toString_inj (n m : Z) : JS.toString n = JS.toString m -> n = m.
Proof.
  unfold JS.toString. intros E.
  apply DecimalZ.to_int_inj.
  destruct (to_int_not_nil n) as [Hn1 Hn2], (to_int_not_nil m) as [Hm1 Hm2].
  pose proof (NilZero.isi (Z.to_int n) Hn1 Hn2) as In.
  pose proof (NilZero.isi (Z.to_int m) Hm1 Hm2) as Im.
  rewrite E in In. congruence.
Qed.

(** X6. The id of a user message and the id of an assistant reply are
    the same string exactly when the message was stamped one millisecond
    after the reply; so a reply that arrives at or after the moment its
    question was sent, even within the same millisecond, never shares the
    id of that question. *)
Theorem reply_id_differs_from_question
    (clk clk' : Clock) (text : string) (response : ChatResponse) (s st : State) :
  images s <> [] ->
  success response = true ->
  exists s1 req resume userMessage aiMessage,
    handleSendMessage clk text s = Awaiting s1 req resume /\
    messages s1 = messages s ++ [userMessage] /\
    messages (resume (Resolved response) clk' st) = messages st ++ [aiMessage] /\
    (id userMessage = id aiMessage <-> Date_now clk = Date_now clk' + 1)%Z /\
    ((Date_now clk <= Date_now clk')%Z -> id userMessage <> id aiMessage).
Proof.
  intros Hne Hok.
  unfold handleSendMessage. rewrite (images_nonempty_length s Hne).
  do 5 eexists. split; [reflexivity |].
  cbn [messages setMessages setIsLoading].
  split; [reflexivity |].
  unfold afterReply. rewrite Hok. cbn [messages setMessages setIsLoading].
  split; [reflexivity |]. cbn [id].
  split; [split |].
  - apply toString_inj.
  - intros ->. reflexivity.
  - intros Hle E. apply toString_inj in E. lia.
Qed.

Lemma reply_id_differs_from_question_witness :
  images oneImage <> [] /\
  success aCat = true /\
  exists s1 req resume,
    handleSendMessage clock0 "what is this" oneImage = Awaiting s1 req resume /\
    isLoading s1 = true.
Proof.
  assert (H : images oneImage <> []) by discriminate.
  split; [exact H |]. split; [reflexivity |].
  destruct (reply_id_differs_from_question
              clock0 clock0 "what is this" aCat oneImage oneImage H eq_refl)
    as (s1 & req & resume & um & am & Hrun & _).
  exists s1, req, resume. split; [exact Hrun |].
  vm_compute in Hrun. injection Hrun as <- _ _. reflexivity.
Defined.

(** * The components *)

(** ** [trim] *)

Section TrimFacts.
Import JSText.

Lemma stripPrefix_app (p r : list ascii) : stripPrefix p (p ++ r) = Some r.
Proof.
  induction p as [| a p IH]; simpl; [reflexivity |].
  now rewrite Ascii.eqb_refl.
Qed.

Lemma stripPrefix_Some (p s r : list ascii) : stripPrefix p s = Some r -> s = p ++ r.
Proof.
  revert s. induction p as [| a p IH]; intros s H; simpl in H.
  - now injection H as ->.
  - destruct s as [| b s]; [discriminate |].
    destruct (Ascii.eqb_spec a b) as [-> | _]; [| discriminate].
    simpl. f_equal. now apply IH.
Qed.

Lemma stripAny_Some (ps : list (list ascii)) (s r : list ascii) :
  stripAny ps s = Some r -> exists p, In p ps /\ s = p ++ r.
Proof.
  induction ps as [| p ps IH]; simpl; [discriminate |].
  destruct (stripPrefix p s) as [r' |] eqn:Hp.
  - intros [= <-]. exists p. split; [now left | now apply stripPrefix_Some].
  - intros H. destruct (IH H) as (q & Hq & Hs). exists q. split; [now right | exact Hs].
Qed.

(** A string that starts with one of the patterns is stripped of some pattern. *)
Lemma stripAny_hit (ps : list (list ascii)) (p r : list ascii) :
  In p ps -> stripAny ps (p ++ r) <> None.
Proof.
  induction ps as [| q ps IH]; simpl; [contradiction |].
  intros [-> | Hin].
  - now rewrite stripPrefix_app.
  - destruct (stripPrefix q (p ++ r)); [discriminate | now apply IH].
Qed.

Lemma dropAll_split (ps : list (list ascii)) (fuel : nat) : forall s,
  exists pre,
    s = pre ++ dropAll ps fuel s /\ Forall (fun b => In b (concat ps)) pre.
Proof.
  induction fuel as [| fuel IH]; intros s; simpl.
  - exists []. split; [reflexivity | constructor].
  - destruct (stripAny ps s) as [r |] eqn:Hs.
    + destruct (stripAny_Some ps s r Hs) as (p & Hp & ->).
      destruct (IH r) as (pre & Hr & Hpre).
      exists (p ++ pre). split.
      * rewrite <- app_assoc. f_equal. exact Hr.
      * apply Forall_app. split; [| exact Hpre].
        apply Forall_forall. intros b Hb. apply in_concat. now exists p.
    + exists []. split; [reflexivity | constructor].
Qed.

Lemma dropAll_done (ps : list (list ascii)) :
  Forall (fun p => p <> []) ps ->
  forall fuel s, length s <= fuel -> stripAny ps (dropAll ps fuel s) = None.
Proof.
  intros Hne. induction fuel as [| fuel IH]; intros s Hlen; simpl.
  - destruct s; [| simpl in Hlen; lia].
    destruct (stripAny ps []) as [r |] eqn:Hs; [| reflexivity].
    destruct (stripAny_Some ps [] r Hs) as (p & Hp & Heq).
    rewrite Forall_forall in Hne. specialize (Hne p Hp).
    destruct p; [contradiction | discriminate].
  - destruct (stripAny ps s) as [r |] eqn:Hs; [| exact Hs].
    destruct (stripAny_Some ps s r Hs) as (p & Hp & ->).
    apply IH. rewrite Forall_forall in Hne. specialize (Hne p Hp).
    rewrite length_app in Hlen. destruct p; [contradiction | simpl in Hlen; lia].
Qed.

Lemma whiteSpace_nonempty : Forall (fun p : list ascii => p <> []) whiteSpace.
Proof. repeat constructor; discriminate. Qed.

Lemma whiteSpace_rev_nonempty :
  Forall (fun p : list ascii => p <> []) (map (@rev ascii) whiteSpace).
Proof. repeat constructor; discriminate. Qed.





Lemma truthy_spec (s : string) : truthy s = true <-> s <> EmptyString.
Proof.
  unfold truthy. destruct (String.eqb_spec s EmptyString) as [-> | Hne]; simpl.
  - split; [discriminate | now intros H].
  - split; [now intros _ | reflexivity].
Qed.


Lemma whiteSpace_strips :
  Forall (fun p => forall r, stripAny whiteSpace (p ++ r) = Some r) whiteSpace.
Proof. repeat constructor. Qed.

Lemma dropAll_blank (ws : list (list ascii)) : forall fuel,
  Forall (fun p => In p whiteSpace) ws ->
  length ws <= fuel ->
  dropAll whiteSpace fuel (concat ws) = [].
Proof.
  induction ws as [| p ws IH]; intros fuel Hall Hfuel.
  - simpl. destruct fuel; reflexivity.
  - destruct fuel as [| fuel]; [simpl in Hfuel; lia |].
    inversion Hall as [| ? ? Hp Hrest]; subst.
    pose proof whiteSpace_strips as Hstrip. rewrite Forall_forall in Hstrip.
    cbn [concat dropAll]. rewrite (Hstrip p Hp).
    apply IH; [exact Hrest | simpl in Hfuel; lia].
Qed.

Lemma concat_length_ge (ws : list (list ascii)) :
  Forall (fun p => In p whiteSpace) ws -> length ws <= length (concat ws).
Proof.
  induction 1 as [| p ws Hp _ IH]; simpl; [lia |].
  rewrite length_app.
  pose proof whiteSpace_nonempty as Hne. rewrite Forall_forall in Hne.
  specialize (Hne p Hp). destruct p; [contradiction | simpl; lia].
Qed.

Lemma trim_blank (s : string) : blank s -> trim s = EmptyString.
Proof.
  intros (ws & Hall & Hs). unfold trim, trimStartBytes. rewrite Hs.
  rewrite dropAll_blank by (auto using concat_length_ge). reflexivity.
Qed.

Lemma trim_no_space_at_ends (s : string) :
  ~ startsWithSpace (trim s) /\ ~ endsWithSpace (trim s).
Proof.
  unfold startsWithSpace, endsWithSpace, trim, trimEndBytes, trimStartBytes.
  rewrite list_ascii_of_string_of_list_ascii.
  set (l := list_ascii_of_string s).
  set (t := dropAll whiteSpace (length l) l).
  assert (Ht : stripAny whiteSpace t = None)
    by (apply dropAll_done; [apply whiteSpace_nonempty | lia]).
  set (u := dropAll (map (@rev ascii) whiteSpace) (length t) (rev t)).
  assert (Hu : stripAny (map (@rev ascii) whiteSpace) u = None).
  { apply dropAll_done; [apply whiteSpace_rev_nonempty | rewrite length_rev; lia]. }
  split.
  - intros Hstart. apply Hstart. clear Hstart.
    destruct (stripAny whiteSpace (rev u)) as [r |] eqn:Hs; [| reflexivity].
    destruct (stripAny_Some _ _ _ Hs) as (p & Hp & Hru).
    destruct (dropAll_split (map (@rev ascii) whiteSpace) (length t) (rev t))
      as (post & Hsplit & _).
    fold u in Hsplit.
    assert (Hteq : t = p ++ r ++ rev post).
    { rewrite <- (rev_involutive t), Hsplit, rev_app_distr, Hru, <- app_assoc.
      reflexivity. }
    rewrite Hteq in Ht. now apply stripAny_hit in Ht.
  - intros Hend. apply Hend. rewrite rev_involutive. exact Hu.
Qed.
End TrimFacts.

(** ** Strings *)

Lemma append_nil_r (s : string) : (s ++ EmptyString)%string = s.
Proof. induction s as [| c s IH]; simpl; [reflexivity | now rewrite IH]. Qed.

Lemma append_assoc (s t u : string) : ((s ++ t) ++ u)%string = (s ++ (t ++ u))%string.
Proof. induction s as [| c s IH]; simpl; [reflexivity | now rewrite IH]. Qed.

Lemma append_empty (s t : string) :
  (s ++ t)%string = EmptyString <-> s = EmptyString /\ t = EmptyString.
Proof.
  destruct s as [| c s]; simpl.
  - split; [now intros -> | now intros [_ ->]].
  - split; [discriminate | intros [E _]; discriminate E].
Qed.

(** ** Voice input *)

Section VoiceFacts.
Import VoiceInput.

Lemma accumulate_fold (results : list SpeechResult) : forall acc,
  fold_left accumulate results acc
  = ((fst acc ++ joined (finalParts results))%string,
     (snd acc ++ joined (interimParts results))%string).
Proof.
  unfold finalParts, interimParts.
  induction results as [| r rest IH]; intros [f i]; simpl.
  - now rewrite !append_nil_r.
  - rewrite IH. unfold accumulate.
    destruct (result_isFinal r); simpl; now rewrite append_assoc.
Qed.

Lemma joined_empty (parts : list string) :
  joined parts = EmptyString <-> Forall (fun t => t = EmptyString) parts.
Proof.
  induction parts as [| t rest IH]; simpl.
  - split; [constructor | reflexivity].
  - rewrite append_empty, IH. split.
    + intros [-> H]. now constructor.
    + intros H. inversion H; subst. now split.
Qed.

(** X7. [onresult] looks only at the results from [resultIndex] on:
    whatever came before is ignored. The final parts are put together in
    order, and so are the interim parts; the transcript shown is the final
    text when there is some, the interim text otherwise; and the callback
    is called, with the final text trimmed, exactly when some final result
    has a non-empty transcript. *)
Theorem onresult_reads_new_results
    (earlier results : list SpeechResult) (st : VoiceState) :
  let finalText := joined (finalParts results) in
  let interimText := joined (interimParts results) in
  onresult (length earlier) (earlier ++ results) st = onresult 0 results st /\
  transcript (fst (onresult 0 results st))
  = (if JSText.truthy finalText then finalText else interimText) /\
  ((exists r, In r results /\ result_isFinal r = true /\
              result_transcript r <> EmptyString) ->
   snd (onresult 0 results st) = Some (JSText.trim finalText)) /\
  ((forall r, In r results -> result_isFinal r = true ->
              result_transcript r = EmptyString) ->
   snd (onresult 0 results st) = None).
Proof.
  intros finalText interimText. split; [| split; [| split]].
  - unfold onresult. now rewrite skipn_app, skipn_all, Nat.sub_diag.
  - unfold onresult. cbn [skipn]. rewrite accumulate_fold. reflexivity.
  - intros (r & Hin & Hfinal & Hne).
    unfold onresult. cbn [skipn]. rewrite accumulate_fold. cbn [fst snd append].
    fold finalText.
    replace (JSText.truthy finalText) with true; [reflexivity |].
    symmetry. apply truthy_spec. intros E. apply joined_empty in E.
    rewrite Forall_forall in E. apply Hne, E.
    unfold finalParts. apply in_map. apply filter_In. now split.
  - intros Hall.
    unfold onresult. cbn [skipn]. rewrite accumulate_fold. cbn [fst snd append].
    fold finalText.
    replace finalText with EmptyString; [reflexivity |].
    symmetry. apply joined_empty. apply Forall_forall. intros t Ht.
    unfold finalParts in Ht. apply in_map_iff in Ht as (r & <- & Hr).
    apply filter_In in Hr as [Hin Hfinal]. now apply Hall.
Qed.

Lemma unique_spec (langs : list string) : forall seen,
  NoDup (unique seen langs) /\
  (forall l, In l (unique seen langs) <-> In l langs /\ ~ In l seen).
Proof.
  induction langs as [| x rest IH]; intros seen; simpl.
  - split; [constructor | intros l; tauto].
  - destruct (existsb (String.eqb x) seen) eqn:Hseen.
    + destruct (IH seen) as [Hnd Hin]. split; [exact Hnd |].
      intros l. rewrite Hin. split; [tauto |].
      intros [[<- | Hl] Hnot]; [| tauto].
      exfalso. apply Hnot. apply existsb_exists in Hseen as (y & Hy & Heq).
      apply String.eqb_eq in Heq. now subst.
    + destruct (IH (x :: seen)) as [Hnd Hin].
      assert (Hx : ~ In x seen).
      { intros Hx. apply Bool.not_true_iff_false in Hseen. apply Hseen.
        apply existsb_exists. exists x. split; [exact Hx | apply String.eqb_refl]. }
      split.
      * constructor; [| exact Hnd]. rewrite Hin. simpl. tauto.
      * intros l. simpl. rewrite Hin. simpl. split.
        -- intros [<- | [Hl Hnot]]; [tauto | tauto].
        -- intros [[<- | Hl] Hnot]; [now left |].
           destruct (String.eqb_spec x l) as [-> | Hne]; [now left | right; tauto].
Qed.

(** X8. The language the recogniser is set to is the browser language,
    or en-US when the browser reports none; the list it is the head of has
    no language twice and holds exactly the browser language and the three
    fixed fallbacks. *)
Theorem uniqueLanguages_primary_and_distinct (navigatorLanguage : string) :
  let browserLang :=
    if JSText.truthy navigatorLanguage then navigatorLanguage else "en-US" in
  hd_error (uniqueLanguages navigatorLanguage) = Some browserLang /\
  NoDup (uniqueLanguages navigatorLanguage) /\
  (forall l, In l (uniqueLanguages navigatorLanguage)
             <-> l = browserLang \/ In l fallbackLangs).
Proof.
  intros browserLang. unfold uniqueLanguages.
  destruct (unique_spec (supportedLanguages navigatorLanguage) []) as [Hnd Hin].
  split; [reflexivity |]. split; [exact Hnd |].
  intros l. rewrite Hin. unfold supportedLanguages, fallbackLangs. fold browserLang.
  simpl. intuition congruence.
Qed.

Lemma last_cons_default {A : Type} (l : list A) : forall x d d',
  last (x :: l) d = last (x :: l) d'.
Proof.
  induction l as [| y l IH]; intros x d d'; [reflexivity |].
  change (last (y :: l) d = last (y :: l) d'). apply IH.
Qed.

Lemma tryNextLanguage_find (start : string -> bool) (langs : list string) :
  forall lang st,
    tryNextLanguage start langs lang st
    = match find start langs with
      | Some l => (l, setErrorMessage EmptyString st)
      | None =>
          (last langs lang,
           setIsSupported false
             (setErrorMessage "Voice recognition not available for your language" st))
      end.
Proof.
  induction langs as [| next rest IH]; intros lang st; simpl.
  - reflexivity.
  - destruct (start next) eqn:Hstart; [reflexivity |].
    rewrite IH. destruct (find start rest); [reflexivity |].
    destruct rest as [| y rest]; [reflexivity |].
    now rewrite (last_cons_default rest y next lang).
Qed.

(** X9. On a language-not-supported error the recogniser is set to the
    first of en-US, en, en-GB with which it starts, the error message is
    cleared and voice input stays as supported as it was; when it starts
    with none of them, it is left on en-GB and voice input is marked
    unsupported. In both cases listening is off and the transcript is
    kept. *)
Theorem onerror_language_fallback
    (start : string -> bool) (lang : string) (st : VoiceState) :
  let after := onerror start "language-not-supported" lang st in
  isListening (snd after) = false /\
  transcript (snd after) = transcript st /\
  (forall l, find start fallbackLangs = Some l ->
     fst after = l /\ start l = true /\
     errorMessage (snd after) = EmptyString /\
     isSupported (snd after) = isSupported st) /\
  (find start fallbackLangs = None ->
     fst after = "en-GB" /\
     isSupported (snd after) = false /\
     errorMessage (snd after) = "Voice recognition not available for your language").
Proof.
  intros after. subst after. unfold onerror.
  rewrite String.eqb_refl, tryNextLanguage_find.
  destruct (find start fallbackLangs) as [l |] eqn:Hfind.
  - split; [reflexivity |]. split; [reflexivity |]. split.
    + intros l' [= <-]. apply find_some in Hfind as [_ Hstart].
      repeat split; [exact Hstart].
    + discriminate.
  - split; [reflexivity |]. split; [reflexivity |]. split.
    + discriminate.
    + intros _. repeat split.
Qed.

(** X10. Every error ends listening and keeps the transcript. Only the
    language-not-supported error changes the language, and voice input can
    be marked unsupported only by a not-allowed error or by a
    language-not-supported error after which no fallback starts. *)
Theorem onerror_effects
    (start : string -> bool) (err lang : string) (st : VoiceState) :
  let after := onerror start err lang st in
  isListening (snd after) = false /\
  transcript (snd after) = transcript st /\
  (err <> "language-not-supported" -> fst after = lang) /\
  (err = "not-allowed" -> isSupported (snd after) = false) /\
  (err <> "not-allowed" ->
   (err = "language-not-supported" -> find start fallbackLangs <> None) ->
   isSupported (snd after) = isSupported st).
Proof.
  intros after. subst after. unfold onerror.
  destruct (String.eqb_spec err "language-not-supported") as [-> | Hlang].
  - rewrite tryNextLanguage_find.
    destruct (find start fallbackLangs) as [l |] eqn:Hfind; simpl;
      repeat split; try congruence; try discriminate.
    intros _ H. now specialize (H eq_refl).
  - destruct (String.eqb_spec err "not-allowed") as [-> | Hallowed];
      [| destruct (String.eqb err "no-speech"); [| destruct (String.eqb err "network")]];
      simpl; repeat split; congruence.
Qed.

End VoiceFacts.

(** ** The page driven through its components *)

Lemma handleImageCapture_isLoading (payload : string) (s : State) :
  isLoading (handleImageCapture payload s) = isLoading s.
Proof. unfold handleImageCapture. destruct (String.eqb payload EmptyString); reflexivity. Qed.

Lemma trim_wellTrimmed (x : string) :
  JSText.truthy (JSText.trim x) = true -> wellTrimmed (JSText.trim x).
Proof.
  intros Ht. split; [now apply truthy_spec | apply trim_no_space_at_ends].
Qed.

Lemma assistant_askedProperly (m : Message) : role m = assistant -> askedProperly m.
Proof. intros Hrole Huser. congruence. Qed.

Lemma askedProperly_history (msgs : list Message) :
  Forall askedProperly msgs ->
  Forall (fun h => entry_role h = user -> ChatAction.keepEntry h = true) (toHistory msgs).
Proof.
  intros Hall. unfold toHistory. apply Forall_map.
  eapply Forall_impl; [| exact Hall].
  intros m Hm Huser. cbn [entry_role entry_content] in *.
  destruct (Hm Huser) as [Hne _].
  unfold ChatAction.keepEntry. cbn [entry_role entry_content]. rewrite Huser.
  unfold ChatAction.truthy. simpl.
  now destruct (String.eqb_spec (content m) EmptyString).
Qed.

Lemma pageInv_images (ss : Session) (e : Event) :
  (exists payload, e = AddImage payload) \/ (exists index, e = RemoveImage index) ->
  pageInv ss -> pageInv (step ss e).
Proof.
  intros He (Hflight & _ & Hcalls).
  assert (Hload : isLoading (ui (step ss e)) = isLoading (ui ss) /\
                  pending (step ss e) = pending ss /\
                  calls (step ss e) = calls ss /\
                  messages (ui (step ss e)) = []).
  { destruct He as [[payload ->] | [index ->]]; cbn [step ui pending calls].
    - rewrite handleImageCapture_isLoading. repeat split.
      unfold handleImageCapture. destruct (String.eqb payload EmptyString); reflexivity.
    - repeat split. }
  destruct Hload as (Hl & Hp & Hc & Hm).
  split; [| split].
  - unfold singleFlight. rewrite Hl, Hp. exact Hflight.
  - rewrite Hm. constructor.
  - rewrite Hc. exact Hcalls.
Qed.

Lemma pageInv_send (ss : Session) (clk : Clock) (text : string) :
  isLoading (ui ss) = false ->
  wellTrimmed text ->
  pageInv ss -> pageInv (step ss (SendMessage clk text)).
Proof.
  intros Hidle Htext (Hflight & Hmsgs & Hcalls).
  destruct Hflight as [[_ Hpend] | [Hbusy _]]; [| congruence].
  cbn [step]. unfold handleSendMessage.
  destruct (images (ui ss)) as [| img0 rest]; cbn [length Nat.eqb].
  - cbn [ui pending calls]. split; [| split].
    + left. split; [exact Hidle | exact Hpend].
    + cbn [messages setMessages].
      constructor; [now apply assistant_askedProperly | constructor].
    + exact Hcalls.
  - cbn [ui pending calls]. rewrite Hpend.
    assert (Hnew : Forall askedProperly
                     (messages (ui ss) ++
                        [{| id := JS.toString (Date_now clk); role := user; content := text;
                            timestamp := new_Date clk; imageUrl := JS.first (img0 :: rest);
                            audioUrl := None |}])).
    { apply Forall_app. split; [exact Hmsgs |].
      constructor; [now intros _ | constructor]. }
    split; [| split].
    + right. split; [reflexivity |]. eexists. reflexivity.
    + exact Hnew.
    + apply Forall_app. split; [exact Hcalls |].
      constructor; [| constructor].
      unfold keepsQuestions. cbn [call_history]. now apply askedProperly_history.
Qed.

Lemma pageInv_settle (ss : Session) (o : Outcome) (clk : Clock) :
  pageInv ss -> pageInv (step ss (Settle o clk)).
Proof.
  intros (Hflight & Hmsgs & Hcalls).
  cbn [step]. destruct Hflight as [[Hidle Hpend] | [Hbusy [req Hpend]]]; rewrite Hpend.
  - split; [left; now split | now split].
  - cbn [ui pending calls]. split; [| split].
    + left. split; [apply afterReply_frame | reflexivity].
    + unfold afterReply.
      destruct o as [response |]; [destruct (success response) |]; simpl;
        try exact Hmsgs.
      apply Forall_app. split; [exact Hmsgs |].
      constructor; [now apply assistant_askedProperly | constructor].
    + exact Hcalls.
Qed.

Lemma pageInv_sendIf (ss : Session) (clk : Clock) (loading : bool) (sent : option string) :
  loading = isLoading (ui ss) ->
  (forall text, sent = Some text -> loading = false /\ wellTrimmed text) ->
  pageInv ss -> pageInv (sendIf clk sent ss).
Proof.
  intros -> Hsent Hinv. destruct sent as [text |]; [| exact Hinv].
  destruct (Hsent text eq_refl) as [Hidle Htext].
  now apply pageInv_send.
Qed.

Lemma handleSubmit_sent (loading : bool) (st : ChatInterface.ChatState) (text : string) :
  snd (ChatInterface.handleSubmit loading st) = Some text ->
  loading = false /\ wellTrimmed text.
Proof.
  unfold ChatInterface.handleSubmit.
  destruct (JSText.truthy (JSText.trim (ChatInterface.inputText st))) eqn:Ht;
    destruct loading; simpl; try discriminate.
  intros [= <-]. split; [reflexivity | now apply trim_wellTrimmed].
Qed.

Lemma heard_sent (loading : bool) (resultIndex : nat)
    (results : list VoiceInput.SpeechResult) (vst : VoiceInput.VoiceState)
    (cst : ChatInterface.ChatState) (heard text : string) :
  snd (VoiceInput.onresult resultIndex results vst) = Some heard ->
  snd (ChatInterface.handleVoiceTranscript loading heard cst) = Some text ->
  loading = false /\ wellTrimmed text.
Proof.
  unfold VoiceInput.onresult, ChatInterface.handleVoiceTranscript. cbn [snd].
  destruct (JSText.truthy (fst _)); [| discriminate].
  intros [= <-].
  destruct (JSText.truthy (JSText.trim _)) eqn:Ht; destruct loading; simpl;
    try discriminate.
  intros [= <-]. split; [reflexivity | now apply trim_wellTrimmed].
Qed.

Lemma appStep_pageInv (app : App) (e : UIEvent) :
  pageInv (home app) -> pageInv (home (appStep app e)).
Proof.
  intros Hinv.
  destruct e as [payload | index | text | clk | clk resultIndex results | on | o clk];
    cbn [appStep].
  - cbn [home]. apply pageInv_images; [left; now exists payload | exact Hinv].
  - cbn [home]. apply pageInv_images; [right; now exists index | exact Hinv].
  - exact Hinv.
  - destruct (ChatInterface.handleSubmit (isLoading (ui (home app))) (chat app))
      as [chat' sent] eqn:Hsub.
    cbn [home]. apply (pageInv_sendIf _ _ (isLoading (ui (home app)))); auto.
    intros text ->. apply (handleSubmit_sent _ (chat app)). now rewrite Hsub.
  - destruct (VoiceInput.onresult resultIndex results (voice app))
      as [voice' heard] eqn:Hres.
    destruct heard as [heard |]; [| exact Hinv].
    destruct (ChatInterface.handleVoiceTranscript (isLoading (ui (home app))) heard (chat app))
      as [chat' sent] eqn:Hvoice.
    cbn [home]. apply (pageInv_sendIf _ _ (isLoading (ui (home app)))); auto.
    intros text ->.
    apply (heard_sent _ resultIndex results (voice app) (chat app) heard).
    + now rewrite Hres.
    + now rewrite Hvoice.
  - exact Hinv.
  - cbn [home]. now apply pageInv_settle.
Qed.

Lemma appRun_pageInv (evs : list UIEvent) (app : App) :
  pageInv (home app) -> pageInv (home (appRun evs app)).
Proof.
  revert app. induction evs as [| e evs IH]; intros app Hinv; simpl.
  - exact Hinv.
  - apply IH. now apply appStep_pageInv.
Qed.

Lemma initialApp_pageInv : pageInv (home initialApp).
Proof. split; [left; now split | split; constructor]. Qed.


(** X12. Driven through the chat and voice components, every user
    message of the conversation is non-empty and has no white space at
    either end, whether it was typed or spoken; and in the history given to
    every call, the server action's filter keeps every user entry. *)
Theorem page_questions_trimmed (evs : list UIEvent) :
  let ss := home (appRun evs initialApp) in
  Forall askedProperly (messages (ui ss)) /\
  Forall keepsQuestions (calls ss).
Proof.
  intros ss. subst ss.
  destruct (appRun_pageInv evs initialApp initialApp_pageInv) as (_ & Hmsgs & Hcalls).
  split; assumption.
Qed.

(** X13. A submit while a call is outstanding, or with a text box that
    holds nothing but white space, changes nothing at all: no message is
    sent and the text box keeps its content. Otherwise the text box is
    emptied and the trimmed text is what is sent. *)
Theorem submit_guard (clk : Clock) (app : App) :
  (isLoading (ui (home app)) = true \/ JSText.blank (ChatInterface.inputText (chat app)) ->
   appStep app (Submit clk) = app) /\
  (isLoading (ui (home app)) = false ->
   JSText.trim (ChatInterface.inputText (chat app)) <> EmptyString ->
   appStep app (Submit clk)
   = {| home := step (home app)
                  (SendMessage clk (JSText.trim (ChatInterface.inputText (chat app))));
        chat := ChatInterface.setInputText EmptyString (chat app);
        voice := voice app |}).
Proof.
  destruct app as [ss cst vst]. cbn [appStep home chat voice].
  unfold ChatInterface.handleSubmit. split.
  - intros [Hbusy | Hblank].
    + rewrite Hbusy, Bool.andb_false_r. reflexivity.
    + rewrite (trim_blank _ Hblank). reflexivity.
  - intros Hidle Hne. apply truthy_spec in Hne. rewrite Hne, Hidle. reflexivity.
Qed.

(** * The server actions *)

Section ActionFacts.
Import Actions.

Lemma list_ascii_of_string_app (s t : string) :
  list_ascii_of_string (s ++ t) = list_ascii_of_string s ++ list_ascii_of_string t.
Proof. induction s as [| c s IH]; simpl; [reflexivity | now rewrite IH]. Qed.

Lemma takeUntil_stop (stop : ascii) (s rest : string) :
  ~ In stop (list_ascii_of_string s) ->
  takeUntil stop (s ++ String stop rest) = s.
Proof.
  induction s as [| c s IH]; intros Hnot; simpl.
  - now rewrite Ascii.eqb_refl.
  - simpl in Hnot. destruct (Ascii.eqb_spec c stop) as [-> | Hne]; [tauto |].
    f_equal. apply IH. tauto.
Qed.

Lemma takeUntil_free (stop : ascii) (s : string) :
  ~ In stop (list_ascii_of_string (takeUntil stop s)).
Proof.
  induction s as [| c s IH]; simpl; [tauto |].
  destruct (Ascii.eqb_spec c stop) as [-> | Hne]; simpl; [tauto |].
  intros [E | H]; [now apply Hne | now apply IH].
Qed.

(** The mime type read off a data URL of the shape that [uploadImage]
    and [canvas.toDataURL] write. *)
Lemma mimeTypeOf_data_url (mimeType payload : string) :
  ~ In ","%char (list_ascii_of_string mimeType) ->
  ~ In ";"%char (list_ascii_of_string mimeType) ->
  mimeTypeOf ("data:" ++ mimeType ++ ";base64," ++ payload)
  = if JSText.truthy mimeType then mimeType else "image/jpeg".
Proof.
  intros Hcomma Hsemi. unfold mimeTypeOf, firstField.
  replace ("data:" ++ mimeType ++ ";base64," ++ payload)%string
    with (("data:" ++ mimeType ++ ";base64") ++ String "," payload)%string
    by (simpl; now rewrite !append_assoc).
  rewrite takeUntil_stop.
  - cbn [append matchDataMime afterPrefix Ascii.eqb Bool.eqb].
    replace (mimeType ++ ";base64")%string
      with (mimeType ++ String ";" "base64")%string by reflexivity.
    rewrite (takeUntil_stop ";" mimeType "base64" Hsemi).
    destruct mimeType as [| c rest]; reflexivity.
  - simpl. rewrite list_ascii_of_string_app. simpl.
    intros [E | [E | [E | [E | [E | H]]]]]; try discriminate E.
    apply in_app_or in H as [H | H]; [now apply Hcomma |].
    simpl in H. repeat (destruct H as [E | H]; [discriminate E |]). exact H.
Qed.

(** X14. [uploadImage] succeeds exactly when the form holds a file whose
    bytes can be read; without a file, and with an unreadable one, it
    reports its two errors and no URL. From the URL it returns,
    [chatWithImage] reads back the file's type, when that type has no comma
    and no semicolon, and image/jpeg when the file has no type. *)
Theorem uploadImage_mime_round_trip (base64 : string -> string) (file : option File) :
  (upload_success (uploadImage base64 file) = true <->
   exists f bytes, file = Some f /\ file_bytes f = Some bytes) /\
  (file = None -> uploadImage base64 file
                  = {| upload_success := false; upload_imageUrl := None;
                       upload_error := Some "No image provided" |}) /\
  (forall f, file = Some f -> file_bytes f = None ->
     uploadImage base64 file
     = {| upload_success := false; upload_imageUrl := None;
          upload_error := Some "Failed to process image" |}) /\
  (forall f bytes,
     file = Some f -> file_bytes f = Some bytes ->
     ~ In ","%char (list_ascii_of_string (file_type f)) ->
     ~ In ";"%char (list_ascii_of_string (file_type f)) ->
     exists url,
       upload_imageUrl (uploadImage base64 file) = Some url /\
       mimeTypeOf url
       = if JSText.truthy (file_type f) then file_type f else "image/jpeg").
Proof.
  split; [| split; [| split]].
  - unfold uploadImage. destruct file as [f |]; [destruct (file_bytes f) as [b |] eqn:Hb |];
      simpl; split; try discriminate; try reflexivity.
    + intros _. now exists f, b.
    + intros (f' & b' & [= <-] & Hb'). congruence.
    + intros (f' & b' & [=] & _).
  - intros ->. reflexivity.
  - intros f -> Hb. unfold uploadImage. now rewrite Hb.
  - intros f bytes -> Hb Hcomma Hsemi. unfold uploadImage. rewrite Hb.
    eexists. split; [reflexivity |]. now apply mimeTypeOf_data_url.
Qed.

Lemma takeUntil_incl (stop : ascii) (s : string) (c : ascii) :
  In c (list_ascii_of_string (takeUntil stop s)) -> In c (list_ascii_of_string s).
Proof.
  induction s as [| a s IH]; simpl; [tauto |].
  destruct (Ascii.eqb a stop); simpl; [tauto |].
  intros [E | H]; [now left | right; now apply IH].
Qed.

Lemma afterPrefix_incl (p s r : string) (c : ascii) :
  afterPrefix p s = Some r ->
  In c (list_ascii_of_string r) -> In c (list_ascii_of_string s).
Proof.
  revert s. induction p as [| a p IH]; intros s; simpl.
  - now intros [= ->].
  - destruct s as [| b s]; [discriminate |].
    destruct (Ascii.eqb a b); [| discriminate].
    intros H Hin. simpl. right. now apply (IH s).
Qed.

Lemma matchDataMime_group (s m : string) :
  matchDataMime s = Some m ->
  m <> EmptyString /\
  ~ In ";"%char (list_ascii_of_string m) /\
  (forall c, In c (list_ascii_of_string m) -> In c (list_ascii_of_string s)).
Proof.
  induction s as [| a s IH]; [discriminate |].
  cbn [matchDataMime].
  assert (Hrest : matchDataMime s = Some m ->
                  m <> EmptyString /\
                  ~ In ";"%char (list_ascii_of_string m) /\
                  (forall c, In c (list_ascii_of_string m) ->
                             In c (list_ascii_of_string (String a s)))).
  { intros H. destruct (IH H) as (Hne & Hsemi & Hincl).
    repeat split; try assumption. intros c Hc. simpl. right. now apply Hincl. }
  destruct (afterPrefix "data:" (String a s)) as [after |] eqn:Hafter; [| exact Hrest].
  destruct (JSText.truthy (takeUntil ";" after)) eqn:Ht; [| exact Hrest].
  intros [= <-]. split; [now apply truthy_spec |]. split; [apply takeUntil_free |].
  intros c Hc. apply (afterPrefix_incl _ _ _ c Hafter). now apply (takeUntil_incl ";").
Qed.

(** X15. Whatever the image URL, the content type handed to the model is
    a non-empty string without semicolon or comma: the type written after
    the first [data:] before the first comma, and image/jpeg when there is
    none. A JPEG data URL as the photo component captures it is read as
    image/jpeg. *)
Theorem mimeTypeOf_token (imageUrl : string) :
  mimeTypeOf imageUrl <> EmptyString /\
  ~ In ";"%char (list_ascii_of_string (mimeTypeOf imageUrl)) /\
  ~ In ","%char (list_ascii_of_string (mimeTypeOf imageUrl)) /\
  (matchDataMime (firstField imageUrl) = None -> mimeTypeOf imageUrl = "image/jpeg") /\
  (forall payload, mimeTypeOf ("data:image/jpeg;base64," ++ payload) = "image/jpeg").
Proof.
  unfold mimeTypeOf.
  destruct (matchDataMime (firstField imageUrl)) as [m |] eqn:Hm.
  - destruct (matchDataMime_group _ _ Hm) as (Hne & Hsemi & Hincl).
    split; [exact Hne |]. split; [exact Hsemi |]. split.
    + intros Hc. apply (takeUntil_free "," imageUrl). now apply Hincl.
    + split; [discriminate | reflexivity].
  - split; [discriminate |].
    split; [simpl; intuition discriminate |].
    split; [simpl; intuition discriminate |].
    split; reflexivity.
Qed.




Lemma window_only_matters (window : nat) (older recent : list HistoryEntry) :
  length recent = window ->
  historyBlock window (Some (older ++ recent)) = historyBlock window (Some recent) /\
  JS.slice_last window (older ++ recent) = recent.
Proof.
  intros Hlen.
  assert (Hslice : JS.slice_last window (older ++ recent) = recent).
  { rewrite slice_last_app by lia. apply slice_last_short. lia. }
  split; [| exact Hslice].
  unfold historyBlock, ChatAction.recentHistoryOf.
  rewrite Hslice, (slice_last_short window recent) by lia.
  rewrite length_app.
  destruct recent as [| h recent].
  - destruct (0 <? length older + length (@nil HistoryEntry)); reflexivity.
  - replace (0 <? length older + length (h :: recent)) with true
      by (symmetry; apply Nat.ltb_lt; simpl; lia).
    reflexivity.
Qed.


End ActionFacts.


(** ** [chatWithImage], both variants *)

Section ChatFacts.
Import Actions.

Variable generate : Prompt -> GenerateResult.

Lemma textOnly_cases (textPrompt : string) :
  (exists t, generate (TextPrompt textPrompt) = Generated t /\
             ChatFallback.textOnly generate textPrompt = ok t) \/
  (exists d, generate (TextPrompt textPrompt) = Threw d /\
             ChatFallback.textOnly generate textPrompt = ChatFallback.failure).
Proof.
  unfold ChatFallback.textOnly.
  destruct (generate (TextPrompt textPrompt)) as [t | d]; [left | right]; eauto.
Qed.

Lemma fallback_success_cases
    (question : string) (imageUrl : option string)
    (conversationHistory : option (list HistoryEntry)) :
  let r := ChatFallback.chatWithImage generate question imageUrl conversationHistory in
  (success r = true -> exists p, generate p = Generated (message r)) /\
  (success r = false -> r = ChatFallback.failure).
Proof.
  intros r. subst r. unfold ChatFallback.chatWithImage, ChatFallback.textOnly.
  repeat match goal with
         | |- context [match ?x with _ => _ end] => destruct x eqn:?
         end; simpl; split; try discriminate; try reflexivity; eauto.
Qed.

(** X17. The variant with the retry answers with success exactly when
    one of its generations returned, and then with that text, unchanged; it
    answers with its one fixed failure exactly when the generation on text
    alone threw. With a non-empty image it first generates from the text
    and the image; only when that throws does it generate from the text
    with a note on the image type added; with no image, or the empty string
    as image, it generates from the text alone. *)
Theorem fallback_chat_response
    (question : string) (imageUrl : option string)
    (conversationHistory : option (list HistoryEntry)) :
  let textPrompt := textPromptOf ChatAction.historyWindow question conversationHistory in
  let r := ChatFallback.chatWithImage generate question imageUrl conversationHistory in
  (success r = true ->
   error r = None /\ exists p, generate p = Generated (message r)) /\
  (success r = false ->
   r = ChatFallback.failure /\ exists p d, generate (TextPrompt p) = Threw d) /\
  (forall url t,
     imageUrl = Some url -> url <> EmptyString ->
     generate (PartsPrompt textPrompt url (mimeTypeOf url)) = Generated t ->
     r = ok t) /\
  (forall url d,
     imageUrl = Some url -> url <> EmptyString ->
     generate (PartsPrompt textPrompt url (mimeTypeOf url)) = Threw d ->
     r = ChatFallback.textOnly generate
           (textPrompt ++ ChatFallback.imageNote (mimeTypeOf url))%string) /\
  (imageUrl = None \/ imageUrl = Some EmptyString ->
   r = ChatFallback.textOnly generate textPrompt).
Proof.
  intros textPrompt r.
  assert (Htext : forall p,
            let a := ChatFallback.textOnly generate p in
            (success a = true ->
             error a = None /\ exists q, generate q = Generated (message a)) /\
            (success a = false ->
             a = ChatFallback.failure /\ exists q d, generate (TextPrompt q) = Threw d)).
  { intros p a. subst a.
    destruct (textOnly_cases p) as [(t & Hg & ->) | (d & Hg & ->)]; simpl.
    - split; [intros _; split; [reflexivity | eauto] | discriminate].
    - split; [discriminate | intros _; split; [reflexivity | eauto]]. }
  subst r. unfold ChatFallback.chatWithImage. fold textPrompt.
  destruct imageUrl as [url |].
  - destruct (JSText.truthy url) eqn:Hurl.
    + apply truthy_spec in Hurl.
      destruct (generate (PartsPrompt textPrompt url (mimeTypeOf url)))
        as [t | d] eqn:Hg.
      * split; [intros _; split; [reflexivity | simpl; eauto] |].
        split; [discriminate |].
        split; [intros ? ? [= <-] _ E; rewrite Hg in E; now injection E as -> |].
        split; [intros ? ? [= <-] _ E; rewrite Hg in E; discriminate E |].
        intros [E | [= E]]; [discriminate E | congruence].
      * destruct (Htext (textPrompt ++ ChatFallback.imageNote (mimeTypeOf url))%string)
          as [Hok Hfail].
        split; [exact Hok |]. split; [exact Hfail |].
        split; [intros ? ? [= <-] _ E; rewrite Hg in E; discriminate E |].
        split; [intros ? ? [= <-] _ _; reflexivity |].
        intros [E | [= E]]; [discriminate E | congruence].
    + assert (Hempty : url = EmptyString).
      { destruct (String.eqb_spec url EmptyString) as [E | Hne]; [exact E |].
        apply truthy_spec in Hne. congruence. }
      destruct (Htext textPrompt) as [Hok Hfail].
      split; [exact Hok |]. split; [exact Hfail |].
      split; [intros ? ? [= <-] Hne; congruence |].
      split; [intros ? ? [= <-] Hne; congruence |].
      reflexivity.
  - destruct (Htext textPrompt) as [Hok Hfail].
    split; [exact Hok |]. split; [exact Hfail |].
    split; [discriminate |]. split; [discriminate |]. reflexivity.
Qed.

(** X18. The variant with the retry reads the last six entries of the
    history and nothing older: two histories with the same last six
    entries get the same answer. *)
Theorem fallback_chat_window
    (question : string) (imageUrl : option string) (older recent : list HistoryEntry) :
  length recent = ChatAction.historyWindow ->
  ChatFallback.chatWithImage generate question imageUrl (Some (older ++ recent))
  = ChatFallback.chatWithImage generate question imageUrl (Some recent).
Proof.
  intros Hlen. unfold ChatFallback.chatWithImage, textPromptOf.
  rewrite (proj1 (window_only_matters _ older recent Hlen)). reflexivity.
Qed.

Lemma trim_nonempty_truthy (url : string) :
  JSText.trim url <> EmptyString -> JSText.truthy url = true.
Proof.
  intros Hne. apply truthy_spec. intros ->. now apply Hne.
Qed.

Lemma strict_with_image (question url : string)
    (conversationHistory : option (list HistoryEntry)) :
  JSText.trim url <> EmptyString ->
  ChatStrict.chatWithImage generate question (Some url) conversationHistory
  = match generate (PartsPrompt
                      (textPromptOf ChatStrict.historyWindow question conversationHistory)
                      url (mimeTypeOf url)) with
    | Generated t => ok t
    | Threw d => ChatStrict.generationFailed d
    end.
Proof.
  intros Hne. unfold ChatStrict.chatWithImage.
  rewrite (trim_nonempty_truthy url Hne).
  now destruct (String.eqb_spec (JSText.trim url) EmptyString).
Qed.

(** X19. The variant that requires an image answers with its fixed
    no-image failure, whatever the model would do, when the image is
    missing, empty or nothing but white space. Otherwise it answers from one
    generation on the text and the image: with success and the generated
    text when that returns, with a failure that quotes what was thrown when
    it throws. *)
Theorem strict_chat_response
    (question : string) (imageUrl : option string)
    (conversationHistory : option (list HistoryEntry)) :
  let r := ChatStrict.chatWithImage generate question imageUrl conversationHistory in
  (imageUrl = None \/ (exists url, imageUrl = Some url /\ JSText.blank url) ->
   r = ChatStrict.noImage) /\
  (forall url,
     imageUrl = Some url -> JSText.trim url <> EmptyString ->
     let p := PartsPrompt
                (textPromptOf ChatStrict.historyWindow question conversationHistory)
                url (mimeTypeOf url) in
     (forall t, generate p = Generated t -> r = ok t) /\
     (forall d, generate p = Threw d -> r = ChatStrict.generationFailed d)) /\
  (success r = true ->
   exists url t,
     imageUrl = Some url /\ JSText.trim url <> EmptyString /\
     message r = t /\
     generate (PartsPrompt
                 (textPromptOf ChatStrict.historyWindow question conversationHistory)
                 url (mimeTypeOf url)) = Generated t).
Proof.
  intros r. subst r. split; [| split].
  - intros [-> | (url & -> & Hblank)]; [reflexivity |].
    unfold ChatStrict.chatWithImage. rewrite (trim_blank url Hblank).
    now rewrite Bool.orb_true_r.
  - intros url -> Hne p. subst p. rewrite (strict_with_image _ _ _ Hne).
    split; [intros t -> | intros d ->]; reflexivity.
  - destruct imageUrl as [url |]; [| discriminate].
    destruct (String.eqb_spec (JSText.trim url) EmptyString) as [E | Hne].
    + unfold ChatStrict.chatWithImage. rewrite E, Bool.orb_true_r. discriminate.
    + rewrite (strict_with_image _ _ _ Hne).
      destruct (generate _) as [t | d] eqn:Hg; [| discriminate].
      intros _. exists url, t. repeat split; assumption.
Qed.

Lemma textPromptOf_short (question : string) (history : list HistoryEntry) :
  length history <= ChatAction.historyWindow ->
  textPromptOf ChatStrict.historyWindow question (Some history)
  = textPromptOf ChatAction.historyWindow question (Some history).
Proof.
  intros Hlen. unfold textPromptOf, historyBlock, ChatAction.recentHistoryOf.
  unfold ChatStrict.historyWindow, ChatAction.historyWindow in *.
  now rewrite !slice_last_short by lia.
Qed.

(** X20. The two variants of the action agree, answer for answer, when
    the image is not blank, the history has at most six entries and the
    generation from text and image returns: both ask the model the same
    thing and pass its text on. They part when that generation throws: the
    strict variant reports a failure, the variant with the retry answers
    from the text alone. *)
Theorem variants_agree_and_differ
    (question url : string) (history : list HistoryEntry) :
  JSText.trim url <> EmptyString ->
  length history <= ChatAction.historyWindow ->
  let p := PartsPrompt
             (textPromptOf ChatAction.historyWindow question (Some history))
             url (mimeTypeOf url) in
  (forall t, generate p = Generated t ->
     ChatFallback.chatWithImage generate question (Some url) (Some history) = ok t /\
     ChatStrict.chatWithImage generate question (Some url) (Some history) = ok t) /\
  (forall d, generate p = Threw d ->
     ChatStrict.chatWithImage generate question (Some url) (Some history)
     = ChatStrict.generationFailed d /\
     ChatFallback.chatWithImage generate question (Some url) (Some history)
     = ChatFallback.textOnly generate
         (textPromptOf ChatAction.historyWindow question (Some history)
            ++ ChatFallback.imageNote (mimeTypeOf url))%string).
Proof.
  intros Hne Hlen p. subst p.
  rewrite (strict_with_image _ _ _ Hne), (textPromptOf_short _ _ Hlen).
  unfold ChatFallback.chatWithImage. rewrite (trim_nonempty_truthy url Hne).
  split; [intros t -> | intros d ->]; split; reflexivity.
Qed.

(** X21. A turn of the page against either variant of the action, when
    every generation throws: the conversation gains the user's message and
    nothing else, and the busy flag is cleared. The apology that the action
    writes into its failed answer is never shown. *)
Theorem failed_generation_shows_nothing
    (clk clk' : Clock) (text : string) (s : State) :
  images s <> [] ->
  (forall p, exists d, generate p = Threw d) ->
  let viaFallback := turnWith (ChatFallback.chatWithImage generate) clk clk' text s in
  let viaStrict := turnWith (ChatStrict.chatWithImage generate) clk clk' text s in
  toHistory (messages viaFallback)
  = toHistory (messages s) ++ [{| entry_role := user; entry_content := text |}] /\
  toHistory (messages viaStrict)
  = toHistory (messages s) ++ [{| entry_role := user; entry_content := text |}] /\
  isLoading viaFallback = false /\
  isLoading viaStrict = false.
Proof.
  intros Hne Hthrows viaFallback viaStrict. subst viaFallback viaStrict.
  unfold turnWith, handleSendMessage. rewrite (images_nonempty_length s Hne).
  set (req1 := call_message _). set (req2 := call_imageUrl _). set (req3 := call_history _).
  assert (Hf : success (ChatFallback.chatWithImage generate req1 req2 (Some req3)) = false).
  { destruct (success _) eqn:Hs; [| reflexivity].
    destruct (proj1 (fallback_success_cases req1 req2 (Some req3)) Hs) as (p & Hp).
    destruct (Hthrows p) as [d Hd]. congruence. }
  assert (Hst : success (ChatStrict.chatWithImage generate req1 req2 (Some req3)) = false).
  { unfold ChatStrict.chatWithImage. destruct req2 as [url |]; [| reflexivity].
    destruct (negb (JSText.truthy url) || String.eqb (JSText.trim url) EmptyString);
      [reflexivity |].
    destruct (Hthrows (PartsPrompt
                         (textPromptOf ChatStrict.historyWindow req1 (Some req3))
                         url (mimeTypeOf url))) as [d ->].
    reflexivity. }
  unfold afterReply. rewrite Hf, Hst.
  cbn [messages isLoading setMessages setIsLoading].
  unfold toHistory. rewrite map_app. repeat split.
Qed.

(** X22. A turn of the page against the variant with the retry, when the
    generation from text and image returns: the conversation gains the
    user's message and the generated text as the assistant's reply. The
    first image of every session reached from the empty one is non-empty,
    so from the page the action always takes the path with the image. *)
Theorem successful_generation_is_shown
    (evs : list Event) (clk clk' : Clock) (text reply : string) :
  let s := ui (run evs initialSession) in
  images s <> [] ->
  (forall prompt url contentType, generate (PartsPrompt prompt url contentType) = Generated reply) ->
  let after := turnWith (ChatFallback.chatWithImage generate) clk clk' text s in
  toHistory (messages after)
  = toHistory (messages s)
      ++ [{| entry_role := user; entry_content := text |};
          {| entry_role := assistant; entry_content := reply |}] /\
  isLoading after = false /\
  images after = images s.
Proof.
  intros s Hne Hgen after. subst after.
  destruct (run_sessionInv evs initialSession initialSession_inv) as (_ & Himgs & _).
  fold s in Himgs.
  unfold turnWith, handleSendMessage. rewrite (images_nonempty_length s Hne).
  cbn [call_message call_imageUrl call_history].
  destruct (images s) as [| img0 rest] eqn:Hs; [contradiction |].
  assert (Himg0 : JSText.truthy img0 = true).
  { apply truthy_spec. now inversion Himgs. }
  unfold ChatFallback.chatWithImage. cbn [JS.first nth_error]. rewrite Himg0, Hgen.
  unfold afterReply. cbn [success ok message messages images isLoading setMessages setIsLoading].
  rewrite Hs. unfold toHistory. rewrite !map_app, <- app_assoc. repeat split.
Qed.

End ChatFacts.

Lemma fallback_chat_window_witness :
  let g := fun _ : Actions.Prompt => Actions.Generated "A cat" in
  let recent := repeat {| entry_role := user; entry_content := "what is this" |} 6 in
  let older := [{| entry_role := assistant; entry_content := "A dog" |}] in
  length recent = ChatAction.historyWindow /\
  ChatFallback.chatWithImage g "and now" (Some "img1") (Some (older ++ recent))
  = ChatFallback.chatWithImage g "and now" (Some "img1") (Some recent).
Proof.
  intros g recent older.
  assert (H : length recent = ChatAction.historyWindow) by reflexivity.
  split; [exact H |].
  exact (fallback_chat_window g "and now" (Some "img1") older recent H).
Defined.

Lemma variants_agree_and_differ_witness :
  let g := fun _ : Actions.Prompt => Actions.Generated "A cat" in
  let url := "data:image/png;base64,AAAA" in
  JSText.trim url <> EmptyString /\
  length (@nil HistoryEntry) <= ChatAction.historyWindow /\
  ChatFallback.chatWithImage g "what is this" (Some url) (Some [])
  = ChatStrict.chatWithImage g "what is this" (Some url) (Some []).
Proof.
  intros g url.
  assert (H : JSText.trim url <> EmptyString) by (vm_compute; discriminate).
  assert (L : length (@nil HistoryEntry) <= ChatAction.historyWindow)
    by (unfold ChatAction.historyWindow; simpl; lia).
  split; [exact H |]. split; [exact L |].
  destruct (proj1 (variants_agree_and_differ g "what is this" url [] H L)
              "A cat" eq_refl) as [-> ->].
  reflexivity.
Defined.

Lemma failed_generation_shows_nothing_witness :
  let g := fun _ : Actions.Prompt => Actions.Threw None in
  images oneImage <> [] /\
  (forall p, exists d, g p = Actions.Threw d) /\
  isLoading (turnWith (ChatFallback.chatWithImage g) clock0 clock1 "what is this" oneImage)
  = false.
Proof.
  intros g.
  assert (H : images oneImage <> []) by discriminate.
  assert (T : forall p, exists d, g p = Actions.Threw d) by (intros p; now exists None).
  split; [exact H |]. split; [exact T |].
  destruct (failed_generation_shows_nothing g clock0 clock1 "what is this" oneImage H T)
    as (_ & _ & Hbusy & _).
  exact Hbusy.
Defined.

Lemma successful_generation_is_shown_witness :
  let g := fun _ : Actions.Prompt => Actions.Generated "A cat" in
  let s := ui (run [AddImage "img1"] initialSession) in
  images s <> [] /\
  toHistory (messages (turnWith (ChatFallback.chatWithImage g) clock0 clock1 "what is this" s))
  = [{| entry_role := user; entry_content := "what is this" |};
     {| entry_role := assistant; entry_content := "A cat" |}].
Proof.
  intros g s.
  assert (H : images s <> []) by discriminate.
  split; [exact H |].
  destruct (successful_generation_is_shown g [AddImage "img1"] clock0 clock1
              "what is this" "A cat" H (fun _ _ _ => eq_refl))
    as (Hmsgs & _).
  exact Hmsgs.
Defined.

(** ** What is previewed and what is analysed *)

Lemma nth_last_index {A : Type} (l : list A) (d : A) :
  nth (length l - 1) l d = last l d.
Proof.
  destruct l as [| x l _] using rev_ind; [reflexivity |].
  rewrite last_last, length_app. simpl length.
  replace (length l + 1 - 1) with (length l) by lia.
  rewrite app_nth2 by lia. now rewrite Nat.sub_diag.
Qed.

Lemma slice_last_snoc_split {A : Type} (k : nat) (l : list A) (x : A) :
  JS.slice_last (S k) (l ++ [x]) = JS.slice_last k l ++ [x].
Proof.
  unfold JS.slice_last. rewrite length_app, skipn_app. simpl length.
  replace (length l + 1 - S k) with (length l - k) by lia.
  replace (length l - k - length l) with 0 by lia. reflexivity.
Qed.

Lemma capture_images_split (payload : string) (s : State) :
  nonEmpty payload ->
  images (handleImageCapture payload s) = JS.slice_last 2 (images s) ++ [payload].
Proof.
  intros Hne. rewrite (handleImageCapture_images payload s Hne).
  apply slice_last_snoc_split.
Qed.

(** X23. After a capture, the photo component previews the image just
    captured, while the chat component is shown, and the next call is
    given, the oldest image kept: with one image before the capture, or
    two, the image analysed is not the one just captured but the first one
    held before. After a capture the photo component is disabled exactly
    when two images or more were held before it. *)
Theorem preview_newest_analyse_oldest
    (payload : string) (clk : Clock) (text : string) (s : State) :
  nonEmpty payload ->
  let s' := handleImageCapture payload s in
  photoCurrentImage s' = payload /\
  (exists s1 req resume,
     handleSendMessage clk text s' = Awaiting s1 req resume /\
     call_imageUrl req = Some (chatCurrentImage s')) /\
  (0 < length (images s) < 3 -> chatCurrentImage s' = chatCurrentImage s) /\
  (photoDisabled s' = true <-> 2 <= length (images s)).
Proof.
  intros Hne s'.
  assert (Himgs : images s' = JS.slice_last 2 (images s) ++ [payload])
    by now apply capture_images_split.
  assert (Hlen : length (images s') = Nat.min 2 (length (images s)) + 1)
    by (rewrite Himgs, length_app, slice_last_length; reflexivity).
  assert (Hpos : (0 <? length (images s')) = true) by (apply Nat.ltb_lt; lia).
  assert (Hnon : images s' <> []) by (rewrite Himgs; now destruct (JS.slice_last 2 (images s))).
  split; [| split; [| split]].
  - unfold photoCurrentImage. rewrite Hpos, nth_last_index, Himgs. apply last_last.
  - unfold handleSendMessage. rewrite (images_nonempty_length s' Hnon).
    do 3 eexists. split; [reflexivity |]. cbn [call_imageUrl].
    unfold chatCurrentImage, JS.first. rewrite Hpos.
    destruct (images s'); [contradiction | reflexivity].
  - intros Hsome. unfold chatCurrentImage. rewrite Hpos, Himgs.
    replace (0 <? length (images s)) with true by (symmetry; apply Nat.ltb_lt; lia).
    rewrite slice_last_short by lia.
    apply app_nth1. lia.
  - unfold photoDisabled. rewrite Hlen. rewrite Nat.leb_le. lia.
Qed.

Lemma preview_newest_analyse_oldest_witness :
  nonEmpty "img2" /\
  photoCurrentImage (handleImageCapture "img2" oneImage) = "img2" /\
  chatCurrentImage (handleImageCapture "img2" oneImage) = "img1".
Proof.
  assert (H : nonEmpty "img2") by discriminate.
  split; [exact H |].
  destruct (preview_newest_analyse_oldest "img2" clock0 "what is this" oneImage H)
    as (Hphoto & _ & Hchat & _).
  split; [exact Hphoto |]. rewrite Hchat; [reflexivity | simpl; lia].
Defined.

(** ** Speaking without an image *)



(** ** Worked examples *)

Example trim_spaces : JSText.trim "  what is this  " = "what is this".
Proof. reflexivity. Qed.

Example spaces_are_blank : JSText.blank "   ".
Proof.
  exists [[" "%char]; [" "%char]; [" "%char]]. split; [| reflexivity].
  repeat constructor; right; right; right; right; right; now left.
Qed.

(** Typing spaces and submitting sends nothing; typing a question with
    an image held sends it trimmed and sets the busy flag. *)
Example submit_examples :
  let typedSpaces := appRun [Capture "img1"; Edit "   "; Submit clock0] initialApp in
  let typedQuestion :=
    appRun [Capture "img1"; Edit " what is this "; Submit clock0] initialApp in
  messages (ui (home typedSpaces)) = [] /\
  ChatInterface.inputText (chat typedSpaces) = "   " /\
  map content (messages (ui (home typedQuestion))) = ["what is this"] /\
  ChatInterface.inputText (chat typedQuestion) = EmptyString /\
  isLoading (ui (home typedQuestion)) = true.
Proof. repeat split. Qed.

(** The type of a PNG data URL, and of a string that is not a data URL. *)
Example mime_examples :
  Actions.mimeTypeOf "data:image/png;base64,iVBORw0KGgo=" = "image/png" /\
  Actions.mimeTypeOf "https://example.org/cat.png" = "image/jpeg".
Proof. split; reflexivity. Qed.

(** A language-not-supported error where only en-GB starts. *)
Example fallback_to_en_GB :
  VoiceInput.onerror (String.eqb "en-GB") "language-not-supported" "sw-KE"
    VoiceInput.initialVoice
  = ("en-GB", VoiceInput.initialVoice).
Proof. reflexivity. Qed.
